(** * EditableBody: the decoded/encoded body pair of an edited HTTP message

    A shallow embedding of [src/model/http/editable-body.ts].  The class is
    reactive and asynchronous: its behaviour is a sequence of atomic steps of
    the single JavaScript thread (a call of [updateDecodedBody], a change of
    the observed header, the expiry of the throttle timer, the settling of one
    [encodeBody] promise together with the continuation of the task awaiting
    it).  The embedding is therefore a deterministic transition system over an
    explicit world state: the three fields of the object, the header value the
    accessor reads, the throttle gate, the heap of promises, the error log and
    the clock. *)

From Stdlib Require Import NArith List String Ascii Lia.
From Stdlib.Strings Require Import Byte.
From Stdlib Require DecimalString.
From stdpp Require Import base option list strings gmap.

Local Open Scope N_scope.
Local Open Scope nat_scope.

(** ** Data *)

(** A Node [Buffer] is an object: [buf_ref] is its identity (what [===] and
    MobX's reference comparison look at), [buf_bytes] its content. *)
Record Buffer := mkBuffer { buf_ref : nat; buf_bytes : list byte }.

Definition byteLength (b : Buffer) : nat := length (buf_bytes b).

(** [a === b] on two buffers. *)
Definition same_object (a b : Buffer) : bool := Nat.eqb (buf_ref a) (buf_ref b).

(** The value handed to [logError] as [e]. *)
Definition Error := string.

(** [string | string[] | undefined], the result type of
    [getContentEncodingHeader]. *)
Inductive HeaderValue :=
| HeaderUndefined
| HeaderString (value : string)
| HeaderArray (values : list string).

(** One call of the external [encodeBody(this._decodedBody, encodings)],
    stamped with the time at which it was made. *)
Record EncodeCall := mkCall {
  call_time : N;
  call_body : Buffer;
  call_encodings : list string
}.

Inductive PromiseState :=
| Pending
| Fulfilled (value : Buffer)
| Rejected (reason : Error).

(** An [ObservablePromise<Buffer>].  [encode_call] is [Some c] for the promise
    of an encoding task (the async function of [updateEncodedBody], which
    awaits the call [c]) and [None] for [Promise.resolve(initialEncodedBody)].
    The identity of a promise is its index in the heap [promises]. *)
Record ObservablePromise := mkPromise {
  encode_call : option EncodeCall;
  promise_state : PromiseState
}.

(** Modelled from the spec: lodash's [_.throttle(f, 500, {leading: true,
    trailing: true})] is a library function that is not under src/.  The gate
    follows section 4.1 step 2 of the specification: a call in a quiet period
    runs [f] at once and opens an interval of [wait] milliseconds; a call
    inside an interval is remembered and makes [f] run once more at the
    interval boundary, which opens the next interval; an interval that ends
    with nothing remembered returns the gate to the quiet state.
    [timer] is the boundary of the open interval, [lastArgs] records that a
    call arrived inside it. *)
Record Throttle := mkThrottle {
  timer : option N;
  lastArgs : bool
}.

(** The interval handed to [_.throttle] (line 72), in milliseconds. *)
Definition wait : N := 500.

(** The object together with the part of its environment it interacts with. *)
Record World := mkWorld {
  _decodedBody : Buffer;
  _encodedBody : option Buffer;
  _encodingPromise : nat;
  header : HeaderValue;          (* what getContentEncodingHeader() returns now *)
  throttle : Throttle;           (* state of the throttled updateEncodedBody *)
  promises : list ObservablePromise;
  errors : list (Error * list string);   (* calls logError(e, { encodings }) *)
  now : N
}.

Definition set_decodedBody (b : Buffer) (w : World) : World :=
  mkWorld b (_encodedBody w) (_encodingPromise w) (header w) (throttle w)
          (promises w) (errors w) (now w).

Definition set_encodedBody (b : option Buffer) (w : World) : World :=
  mkWorld (_decodedBody w) b (_encodingPromise w) (header w) (throttle w)
          (promises w) (errors w) (now w).

Definition set_encodingPromise (p : nat) (w : World) : World :=
  mkWorld (_decodedBody w) (_encodedBody w) p (header w) (throttle w)
          (promises w) (errors w) (now w).

Definition set_header (h : HeaderValue) (w : World) : World :=
  mkWorld (_decodedBody w) (_encodedBody w) (_encodingPromise w) h (throttle w)
          (promises w) (errors w) (now w).

Definition set_throttle (t : Throttle) (w : World) : World :=
  mkWorld (_decodedBody w) (_encodedBody w) (_encodingPromise w) (header w) t
          (promises w) (errors w) (now w).

Definition set_promises (ps : list ObservablePromise) (w : World) : World :=
  mkWorld (_decodedBody w) (_encodedBody w) (_encodingPromise w) (header w)
          (throttle w) ps (errors w) (now w).

Definition set_errors (es : list (Error * list string)) (w : World) : World :=
  mkWorld (_decodedBody w) (_encodedBody w) (_encodingPromise w) (header w)
          (throttle w) (promises w) es (now w).

Definition set_now (t : N) (w : World) : World :=
  mkWorld (_decodedBody w) (_encodedBody w) (_encodingPromise w) (header w)
          (throttle w) (promises w) (errors w) t.

(** What the environment can do to the object. *)
Inductive Event :=
| UpdateDecodedBody (newBody : Buffer)
    (* the owner calls updateDecodedBody(newBody) *)
| HeaderChanged (h : HeaderValue)
    (* the observable read by getContentEncodingHeader takes the value h *)
| Elapse (dt : N)
    (* dt milliseconds pass; throttle timers that fall due fire *)
| EncodeSettled (p : nat) (outcome : Error + Buffer)
    (* the encodeBody call of task p rejects (inl) or fulfils (inr), and the
       continuation of the task runs *).

(** * The helpers of [src/util/index.ts] *)

Module Util.

(** One argument of [firstMatch]: a pair [[matcher, result]] (an array whose
    first element is a function), or a plain value; [None] is [undefined].
    The matcher is a thunk; it is represented by the boolean it returns. *)
Inductive Test (R : Type) :=
| TestCase (matcher : bool) (result : option R)
| TestValue (value : option R).
Arguments TestCase {R} matcher result.
Arguments TestValue {R} value.

(** JavaScript truthiness of an [R | undefined], given that of [R]. *)
Definition isTruthy {R} (truthy : R → bool) (v : option R) : bool :=
  match v with
  | Some r => truthy r
  | None => false
  end.

(** [firstMatch] (lines 14-23); falling off the loop returns [undefined]. *)
Fixpoint firstMatch {R} (truthy : R → bool) (tests : list (Test R)) : option R :=
  match tests with
  | [] => None
  | TestCase matcher result :: rest =>
      if matcher && isTruthy truthy result then result
      else firstMatch truthy rest
  | TestValue value :: rest =>
      if isTruthy truthy value then value else firstMatch truthy rest
  end.

(** [Math.min(baseString.length, ...strings.map(s => s.length))]
    (lines 27-30).  A string is the list of its code units. *)
Definition shortestLength {C} (baseString : list C) (strings : list (list C)) : nat :=
  foldr Nat.min (length baseString) (map length strings).

(** The loop of [longestPrefix] (lines 32-36), with [steps] iterations left:
    [char] is [baseString[i]]; [s[i] === char] compares two values that may
    be [undefined]; the loop breaks at the first index where a string
    differs.  ([i] stays below every length, so [char] is never
    [undefined].) *)
Fixpoint prefixLoop {C} `{EqDecision C} (baseString : list C)
    (strings : list (list C)) (steps i : nat) (prefix : list C) : list C :=
  match steps with
  | 0 => prefix
  | S steps' =>
      let char := baseString !! i in
      if forallb (λ s, bool_decide (s !! i = char)) strings
      then prefixLoop baseString strings steps' (S i) (prefix ++ option_list char)
      else prefix
  end.

(** [longestPrefix] (lines 25-39). *)
Definition longestPrefix {C} `{EqDecision C} (baseString : list C)
    (strings : list (list C)) : list C :=
  prefixLoop baseString strings (shortestLength baseString strings) 0 [].

(** The values [recursiveMapValues] tells apart: arrays ([_.isArray]), plain
    objects ([_.isPlainObject], with their own keys in order) and everything
    else. *)
#[local] Unset Elimination Schemes.
Inductive JsValue (A : Type) :=
| JsLeaf (a : A)
| JsArray (items : list (JsValue A))
| JsObject (fields : list (string * JsValue A)).
#[local] Set Elimination Schemes.
Arguments JsLeaf {A} a.
Arguments JsArray {A} items.
Arguments JsObject {A} fields.

(** [recursiveMapValues] (lines 135-147).  The elements of an array are
    mapped without a key, the values of an object with their own key. *)
Fixpoint recursiveMapValues {A B} (input : JsValue A)
    (fn : A → option string → JsValue B) (key : option string) : JsValue B :=
  match input with
  | JsArray items =>
      JsArray (map (λ innerObj, recursiveMapValues innerObj fn None) items)
  | JsObject fields =>
      JsObject (map (λ kv, (kv.1, recursiveMapValues kv.2 fn (Some kv.1))) fields)
  | JsLeaf a => fn a key
  end.

(** What [asBuffer] and [byteLength] accept:
    [string | Buffer | Uint8Array | MockttpSerializedBuffer | undefined]. *)
Inductive BufferData :=
| DataUndefined
| DataString (s : string)
| DataBuffer (b : Buffer)
| DataUint8Array (view : list byte)
| DataSerialized (data : list N)     (* { type: 'Buffer', data: number[] } *).

(** [Buffer.from(array)] keeps the low eight bits of every number. *)
Definition byteOfNumber (n : N) : byte :=
  match Byte.of_N (n mod 256) with
  | Some b => b
  | None => x00
  end.

Section Bytes.

(** The UTF-8 encoding of a string, which [TextEncoder.encode] returns and
    whose length is the [size] of [new Blob([input])]: a function of the
    platform. *)
Variable utf8 : string → list byte.

(** [stringToBuffer(input)] with the default encoding ['utf8'] (lines 73-75);
    [fresh] is the identity of the buffer it allocates. *)
Definition stringToBuffer (fresh : nat) (input : string) : Buffer :=
  mkBuffer fresh (utf8 input).

(** [asBuffer] (lines 97-110).  [!data] holds of [undefined] and of the empty
    string. *)
Definition asBuffer (fresh : nat) (data : BufferData) : Buffer :=
  match data with
  | DataUndefined => mkBuffer fresh []
  | DataString EmptyString => mkBuffer fresh []
  | DataBuffer b => b
  | DataString s => stringToBuffer fresh s
  | DataSerialized data => mkBuffer fresh (byteOfNumber <$> data)
  | DataUint8Array view => mkBuffer fresh view
  end.

(** [byteLength] of [src/util/index.ts] (lines 115-125). *)
Definition byteLength (input : BufferData) : nat :=
  match input with
  | DataUndefined => 0
  | DataString EmptyString => 0
  | DataString s => length (utf8 s)
  | DataSerialized data => length data
  | DataBuffer b => length (buf_bytes b)
  | DataUint8Array view => length view
  end.

End Bytes.

End Util.

(** * The response editor: keeping [content-length] up to date *)

Module StaticResponse.

Section ContentLength.

(** [parseInt(s, 10)], [None] standing for [NaN], and [toString] on a byte
    length: functions of the platform. *)
Variable parseInt : string → option Z.
Variable toString : nat → string.

(** [getHeaderValue] (lines 544-552 of the handler configuration
    components): the first value of a header held as an array, the value
    itself otherwise; a missing header is [undefined]. *)
Definition getHeaderValue (headers : gmap string HeaderValue) (headerName : string)
    : option string :=
  match headers !! headerName with
  | Some (HeaderArray headerValue) => head headerValue
  | Some (HeaderString headerValue) => Some headerValue
  | Some HeaderUndefined | None => None
  end.

(** The observer of [body] in [componentDidMount] (lines 632-647): the
    headers after the body went from [previousBody] to [newBody].  The bodies
    are Buffers, whose [byteLength] is their length. *)
Definition bodyChanged (headers : gmap string HeaderValue)
    (previousBody newBody : Buffer) : gmap string HeaderValue :=
  match getHeaderValue headers "content-length" with
  | None | Some EmptyString => headers          (* if (!lengthHeader) return *)
  | Some lengthHeader =>
      if decide (parseInt lengthHeader = Some (Z.of_nat (length (buf_bytes previousBody))))
      then <["content-length"%string :=
               HeaderString (toString (length (buf_bytes newBody)))]> headers
      else headers
  end.

(** The [content-length] header states the byte length of [body]. *)
Definition lengthIsCorrect (headers : gmap string HeaderValue) (body : Buffer) : Prop :=
  ∃ lengthHeader,
    getHeaderValue headers "content-length" = Some lengthHeader ∧
    lengthHeader ≠ EmptyString ∧
    parseInt lengthHeader = Some (Z.of_nat (length (buf_bytes body))).

End ContentLength.

End StaticResponse.

(** * [src/model/account/subscriptions.ts] *)

Module Subscriptions.

Record Prices := mkPrices {
  currency : string;
  monthly : string;
  total : string
}.

Record SubscriptionPlan := mkPlan {
  id : N;
  name : string;
  prices : option Prices
}.

(** The table of lines 15-21, an object: its keys in order. *)
Definition SubscriptionPlans : list (string * SubscriptionPlan) :=
  [ ("pro-monthly", mkPlan 550380 "Pro (monthly)" None);
    ("pro-annual", mkPlan 550382 "Pro (annual)" None);
    ("pro-perpetual", mkPlan 599788 "Pro (perpetual)" None);
    ("team-monthly", mkPlan 550789 "Team (monthly)" None);
    ("team-annual", mkPlan 550788 "Team (annual)" None) ].

(** [loadPlanPrices] (lines 23-35) on the current table; [formatPrice]
    (lines 50-57) formats with [toLocaleString] and is left abstract. *)
Definition loadPlanPrices (formatPrice : string → N → string)
    (plans : list (string * SubscriptionPlan)) : list (string * SubscriptionPlan) :=
  map (λ kv,
         let plan := kv.2 in
         let currency := "X"%string in
         let totalPrice := 0%N in
         let monthlyPrice := 0%N in
         (kv.1, mkPlan (id plan) (name plan)
                  (Some (mkPrices currency (formatPrice currency monthlyPrice)
                                  (formatPrice currency totalPrice)))))
      plans.


(** [getSubscriptionPlanCode] (lines 61-62):
    [_.findKey(SubscriptionPlans, { id: id })], the first key whose plan has
    this [id]; an [undefined] id matches no plan, every plan having one. *)
Definition getSubscriptionPlanCode (plans : list (string * SubscriptionPlan))
    (planId : option N) : option string :=
  fst <$> List.find (λ kv, bool_decide (Some (id kv.2) = planId)) plans.

End Subscriptions.

Section EditableBody.

(** [asHeaderArray] comes from [src/util/headers], which is not under src/:
    the model is parametric in it. *)
Variable asHeaderArray : HeaderValue → list string.

(** ** The members of the class *)

(** [@computed.struct get contentEncodings()] (lines 46-49). *)
Definition contentEncodings (w : World) : list string :=
  asHeaderArray (header w).

(** The function wrapped by [_.throttle] (lines 51-72), up to its first
    [await]: the async function reads [contentEncodings], calls [encodeBody]
    on the current [_decodedBody] and suspends; its promise, a fresh object,
    is stored in [_encodingPromise] before anything else can run. *)
Definition encodeNow (w : World) : World :=
  let encodings := contentEncodings w in
  let call := mkCall (now w) (_decodedBody w) encodings in
  let encodeBodyPromise := length (promises w) in
  set_encodingPromise encodeBodyPromise
    (set_promises (promises w ++ [mkPromise (Some call) Pending]) w).

(** Modelled from the spec: a call of the function [_.throttle] returns (the
    member [updateEncodedBody]), lodash not being under src/.  In a quiet
    period the wrapped function runs at once (leading edge) and an interval
    opens; inside an interval the call is only remembered. *)
Definition updateEncodedBody (w : World) : World :=
  match timer (throttle w) with
  | None => encodeNow (set_throttle (mkThrottle (Some (now w + wait)%N) false) w)
  | Some boundary => set_throttle (mkThrottle (Some boundary) true) w
  end.

(** Modelled from the spec: the timer of the gate fires, the clock standing at
    the interval boundary.  A remembered call makes the wrapped function run
    once (trailing edge) and the next interval opens; otherwise the gate
    returns to the quiet state. *)
Definition timerExpired (w : World) : World :=
  if lastArgs (throttle w)
  then encodeNow (set_throttle (mkThrottle (Some (now w + wait)%N) false) w)
  else set_throttle (mkThrottle None false) w.

(** The value of the constant [encodedBody] of lines 55-59: what the encoder
    returned or, when it failed, [this._decodedBody] as it is when the
    [catch] handler runs. *)
Definition candidate (outcome : Error + Buffer) (w : World) : Buffer :=
  match outcome with
  | inr encoded => encoded
  | inl _ => _decodedBody w
  end.

(** The continuation of the async function after [await encodeBody(...)]
    (lines 55-68) for the task whose promise is [p], awaiting [call]. *)
Definition resumeTask (p : nat) (call : EncodeCall) (outcome : Error + Buffer)
    (w : World) : World :=
  let encodings := call_encodings call in
  (* .catch((e) => { logError(e, { encodings }); return this._decodedBody; }) *)
  let '(encodedBody, w1) :=
    match outcome with
    | inr encoded => (encoded, w)
    | inl e => (_decodedBody w, set_errors (errors w ++ [(e, encodings)]) w)
    end in
  (* runInAction: if (this._encodingPromise === encodeBodyPromise) ... *)
  let w2 :=
    if Nat.eqb (_encodingPromise w1) p
    then set_encodedBody (Some encodedBody) w1
    else w1 in
  (* return encodedBody *)
  set_promises (<[p := mkPromise (Some call) (Fulfilled encodedBody)]> (promises w2)) w2.

(** The constructor (lines 22-39), run at time [t0].  A [Buffer] is truthy
    whatever its length, so [if (initialEncodedBody)] tests for [undefined]. *)
Definition new_EditableBody (initialDecodedBody : Buffer)
    (initialEncodedBody : option Buffer) (getContentEncodingHeader : HeaderValue)
    (t0 : N) : World :=
  match initialEncodedBody with
  | Some encoded =>
      mkWorld initialDecodedBody (Some encoded) 0 getContentEncodingHeader
              (mkThrottle None false)
              [mkPromise None (Fulfilled encoded)] [] t0
  | None =>
      updateEncodedBody
        (mkWorld initialDecodedBody None 0 getContentEncodingHeader
                 (mkThrottle None false) [] [] t0)
  end.

(** [updateDecodedBody] (lines 41-44) followed by the reaction of line 37,
    which MobX runs when the action ends if [_decodedBody] (an
    [observable.ref]) now holds another object. *)
Definition updateDecodedBody (newBody : Buffer) (w : World) : World :=
  let w' := set_decodedBody newBody w in
  if same_object newBody (_decodedBody w) then w' else updateEncodedBody w'.

(** The header source changes; the reaction of line 38 runs if the
    [computed.struct] value [contentEncodings] is structurally different. *)
Definition headerChanged (h : HeaderValue) (w : World) : World :=
  let w' := set_header h w in
  if decide (contentEncodings w' = contentEncodings w) then w' else updateEncodedBody w'.

(** Modelled from the spec: if the timer of the gate is due by [target], move
    the clock to its boundary and fire it. *)
Definition fireIfDue (target : N) (w : World) : World :=
  match timer (throttle w) with
  | Some boundary =>
      if (boundary <=? target)%N then timerExpired (set_now boundary w) else w
  | None => w
  end.

(** Modelled from the spec: [dt] milliseconds pass with no other event.  A
    timer that fires either closes the gate or opens one more interval which
    nothing is queued in, so two rounds settle every timer due in the
    period. *)
Definition elapse (dt : N) (w : World) : World :=
  let target := (now w + dt)%N in
  set_now target (fireIfDue target (fireIfDue target w)).

(** An [encodeBody] promise settles.  Only the pending promise of an encoding
    task can be concerned; anything else is not an event of this object. *)
Definition encodeSettled (p : nat) (outcome : Error + Buffer) (w : World) : World :=
  match promises w !! p with
  | Some (mkPromise (Some call) Pending) => resumeTask p call outcome w
  | _ => w
  end.

Definition step (w : World) (ev : Event) : World :=
  match ev with
  | UpdateDecodedBody newBody => updateDecodedBody newBody w
  | HeaderChanged h => headerChanged h w
  | Elapse dt => elapse dt w
  | EncodeSettled p outcome => encodeSettled p outcome w
  end.

Definition run (w : World) (evs : list Event) : World := fold_left step evs w.

(** ** The getters *)

(** [@computed get contentLength()] (lines 74-77). *)
Definition contentLength (w : World) : nat :=
  match _encodedBody w with
  | Some b => byteLength b
  | None => 0
  end.

(** [get encoded()] (lines 79-81): the promise object, and what awaiting it
    gives in the current world. *)
Definition encoded (w : World) : nat := _encodingPromise w.

Definition await (w : World) (p : nat) : option PromiseState :=
  promise_state <$> promises w !! p.

(** [get decoded()] (lines 83-85). *)
Definition decoded (w : World) : Buffer := _decodedBody w.

(** The calls made to the external encoder so far, oldest first. *)
Definition encodeCalls (w : World) : list EncodeCall :=
  omap encode_call (promises w).

(** ** A concrete header normaliser *)

Definition lower (c : ascii) : ascii :=
  let n := nat_of_ascii c in
  if (65 <=? n) && (n <=? 90) then ascii_of_nat (n + 32) else c.

Definition is_separator (c : ascii) : bool :=
  (c =? ",")%char || (c =? " ")%char.

Definition flush (current : list ascii) : list string :=
  match current with
  | [] => []
  | _ => [string_of_list_ascii current]
  end.

Fixpoint tokens (current : list ascii) (s : string) : list string :=
  match s with
  | EmptyString => flush current
  | String c rest =>
      if is_separator c then flush current ++ tokens [] rest
      else tokens (current ++ [lower c]) rest
  end.

(** Modelled from the spec: [asHeaderArray] of [src/util/headers] is not under
    src/.  Section 6 of the specification asks for the raw header value,
    absent, a string or a sequence of strings, to be normalised into an
    ordered sequence of lowercase encoding tokens.  The theorems below hold
    for every normaliser; this one instantiates them on concrete worlds. *)
Definition headerTokens (h : HeaderValue) : list string :=
  match h with
  | HeaderUndefined => []
  | HeaderString value => tokens [] value
  | HeaderArray values => flat_map (tokens []) values
  end.

(** An event that asks for no recomputation of an object whose encodings are
    those of [h]: neither a call of [updateDecodedBody] nor a header value
    that normalises to other encodings. *)
Definition no_trigger (h : HeaderValue) (ev : Event) : Prop :=
  match ev with
  | UpdateDecodedBody _ => False
  | HeaderChanged h' => asHeaderArray h' = asHeaderArray h
  | Elapse _ | EncodeSettled _ _ => True
  end.

(** A world in which the encoder was never called and the gate is quiet. *)
Definition untouched (h : HeaderValue) (e : Buffer) (w : World) : Prop :=
  timer (throttle w) = None ∧
  Forall (λ pr, encode_call pr = None) (promises w) ∧
  contentEncodings w = asHeaderArray h ∧
  _encodedBody w = Some e.

(** Is the event a call of [updateDecodedBody]? *)
Definition is_update (ev : Event) : bool :=
  match ev with
  | UpdateDecodedBody _ => true
  | _ => false
  end.

(** Is the promise still unsettled? *)
Definition is_pending (pr : ObservablePromise) : bool :=
  match promise_state pr with
  | Pending => true
  | _ => false
  end.

(** The number of encoding tasks whose encoder call has not settled yet. *)
Definition pendingTasks (w : World) : nat :=
  length (List.filter is_pending (promises w)).

(** The worlds the object can be in. *)
Inductive reachable : World → Prop :=
| reachable_new d e h t0 : reachable (new_EditableBody d e h t0)
| reachable_step w ev : reachable w → reachable (step w ev).

(** ** Invariants of the reachable worlds *)

(** Consecutive calls of the encoder are at least [wait] apart. *)
Fixpoint spaced (calls : list EncodeCall) : Prop :=
  match calls with
  | c1 :: (c2 :: _) as rest => (call_time c1 + wait <= call_time c2)%N ∧ spaced rest
  | _ => True
  end.

(** A promise of this object is never rejected, and only the promise of an
    encoding task can be pending. *)
Definition promise_ok (pr : ObservablePromise) : Prop :=
  match promise_state pr with
  | Pending => is_Some (encode_call pr)
  | Fulfilled _ => True
  | Rejected _ => False
  end.

(** The heap: [_encodingPromise] is the newest promise, and every promise is
    well formed. *)
Record heap_ok (w : World) : Prop := {
  heap_pointer : S (_encodingPromise w) = length (promises w);
  heap_states : Forall promise_ok (promises w)
}.

(** The gate: the timer is never overdue, and the last run is a full interval
    behind the boundary (behind the clock, when the gate is quiet). *)
Record gate_ok (w : World) : Prop := {
  gate_timer : ∀ boundary, timer (throttle w) = Some boundary → (now w < boundary)%N;
  gate_spaced : spaced (encodeCalls w);
  gate_last : ∀ c, last (encodeCalls w) = Some c →
    match timer (throttle w) with
    | Some boundary => (call_time c + wait <= boundary)%N
    | None => (call_time c + wait <= now w)%N
    end
}.

(** ** What each member leaves alone *)

Ltac unfold_members :=
  unfold step, elapse, fireIfDue, timerExpired, updateDecodedBody,
    headerChanged, updateEncodedBody, encodeNow, encodeSettled, resumeTask in *.

Ltac by_cases := intros; unfold_members; repeat (case_match; simpl in *); try done.

Lemma updateDecodedBody_encodedBody b w :
  _encodedBody (updateDecodedBody b w) = _encodedBody w.
Proof. by_cases. Qed.

Lemma headerChanged_encodedBody h w :
  _encodedBody (headerChanged h w) = _encodedBody w.
Proof. by_cases. Qed.

Lemma elapse_encodedBody dt w : _encodedBody (elapse dt w) = _encodedBody w.
Proof. by_cases. Qed.

Ltac by_outcome :=
  intros; unfold resumeTask;
  match goal with o : (Error + Buffer)%type |- _ => destruct o end;
  simpl; case_match; simpl; try done.

Lemma resumeTask_throttle p call outcome w :
  throttle (resumeTask p call outcome w) = throttle w.
Proof. by_outcome. Qed.

Lemma resumeTask_now p call outcome w :
  now (resumeTask p call outcome w) = now w.
Proof. by_outcome. Qed.

Lemma resumeTask_decodedBody p call outcome w :
  _decodedBody (resumeTask p call outcome w) = _decodedBody w.
Proof. by_outcome. Qed.

Lemma resumeTask_encodingPromise p call outcome w :
  _encodingPromise (resumeTask p call outcome w) = _encodingPromise w.
Proof. by_outcome. Qed.

(** ** The encoder calls *)

Lemma omap_insert_same {A B} (f : A → option B) (l : list A) i x y :
  l !! i = Some x → f y = f x → omap f (<[i:=y]> l) = omap f l.
Proof.
  revert i. induction l as [|a l IH]; intros [|i] Hi Hf; simpl in *; try done.
  - injection Hi as ->. by rewrite Hf.
  - pose proof (IH i Hi Hf) as E. unfold omap in E. by rewrite E.
Qed.

Lemma encodeCalls_encodeNow w :
  encodeCalls (encodeNow w) =
  encodeCalls w ++ [mkCall (now w) (_decodedBody w) (contentEncodings w)].
Proof. unfold encodeCalls, encodeNow. simpl. by rewrite omap_app. Qed.

Lemma encodeCalls_resumeTask p call outcome w :
  promises w !! p = Some (mkPromise (Some call) Pending) →
  encodeCalls (resumeTask p call outcome w) = encodeCalls w.
Proof.
  intros Hp. unfold encodeCalls, resumeTask.
  destruct outcome; simpl; case_match; simpl;
    by rewrite (omap_insert_same _ _ _ _ _ Hp).
Qed.

Lemma encodeCalls_encodeSettled p outcome w :
  encodeCalls (encodeSettled p outcome w) = encodeCalls w.
Proof.
  unfold encodeSettled.
  destruct (promises w !! p) as [[[call|] []]|] eqn:Hp; try done.
  by apply encodeCalls_resumeTask.
Qed.

(** ** The heap invariant *)

Lemma heap_ok_encodeNow w :
  Forall promise_ok (promises w) → heap_ok (encodeNow w).
Proof.
  intros Hs. split; simpl.
  - rewrite length_app. simpl. lia.
  - apply Forall_app. split; [done|]. constructor; [|constructor].
    unfold promise_ok. simpl. eauto.
Qed.

Lemma heap_ok_updateEncodedBody w : heap_ok w → heap_ok (updateEncodedBody w).
Proof.
  intros [Hp Hs]. unfold updateEncodedBody. destruct (timer (throttle w)).
  - by split.
  - by apply heap_ok_encodeNow.
Qed.

Lemma heap_ok_timerExpired w : heap_ok w → heap_ok (timerExpired w).
Proof.
  intros [Hp Hs]. unfold timerExpired. destruct (lastArgs (throttle w)).
  - by apply heap_ok_encodeNow.
  - by split.
Qed.

Lemma heap_ok_fireIfDue target w : heap_ok w → heap_ok (fireIfDue target w).
Proof.
  intros H. unfold fireIfDue. destruct (timer (throttle w)) as [b|]; [|done].
  destruct (b <=? target)%N; [|done].
  apply heap_ok_timerExpired. by destruct H.
Qed.

Lemma heap_ok_resumeTask p call outcome w :
  heap_ok w → heap_ok (resumeTask p call outcome w).
Proof.
  intros [Hp Hs]. unfold resumeTask.
  destruct outcome; simpl; case_match; split; simpl;
    rewrite ?length_insert; try done; by apply Forall_insert.
Qed.

Lemma heap_ok_new d e h t0 : heap_ok (new_EditableBody d e h t0).
Proof.
  destruct e as [e|]; simpl.
  - split; simpl; [done|]. by repeat constructor.
  - by apply heap_ok_encodeNow.
Qed.

Lemma heap_ok_step w ev : heap_ok w → heap_ok (step w ev).
Proof.
  intros H. destruct ev as [b|h|dt|p outcome]; simpl.
  - unfold updateDecodedBody. destruct (same_object _ _).
    + by destruct H.
    + apply heap_ok_updateEncodedBody. by destruct H.
  - unfold headerChanged. destruct (decide _).
    + by destruct H.
    + apply heap_ok_updateEncodedBody. by destruct H.
  - unfold elapse.
    pose proof (heap_ok_fireIfDue (now w + dt)%N _
                  (heap_ok_fireIfDue (now w + dt)%N _ H)) as [? ?].
    by split.
  - unfold encodeSettled.
    destruct (promises w !! p) as [[[call|] []]|]; try done.
    by apply heap_ok_resumeTask.
Qed.

Lemma reachable_heap_ok w : reachable w → heap_ok w.
Proof. induction 1; [apply heap_ok_new | by apply heap_ok_step]. Qed.

(** ** The gate invariant *)

Lemma spaced_snoc calls c :
  spaced calls →
  (∀ c0, last calls = Some c0 → (call_time c0 + wait <= call_time c)%N) →
  spaced (calls ++ [c]).
Proof.
  induction calls as [|c1 [|c2 rest] IH]; intros Hs Hl; simpl in *.
  - done.
  - split; [|done]. by apply Hl.
  - destruct Hs as [H12 Hs]. split; [done|]. by apply IH.
Qed.

Lemma spaced_lookup calls i c1 c2 :
  spaced calls → calls !! i = Some c1 → calls !! S i = Some c2 →
  (call_time c1 + wait <= call_time c2)%N.
Proof.
  revert i. induction calls as [|a [|b rest] IH]; intros i Hs H1 H2; try done.
  destruct Hs as [Hab Hs]. destruct i as [|i].
  - simpl in *. by simplify_eq.
  - by apply (IH i).
Qed.

(** A run of the wrapped function that opens a new interval at the clock. *)
Lemma gate_ok_run w :
  spaced (encodeCalls w) →
  (∀ c, last (encodeCalls w) = Some c → (call_time c + wait <= now w)%N) →
  gate_ok (encodeNow (set_throttle (mkThrottle (Some (now w + wait)%N) false) w)).
Proof.
  intros Hs Hl. split.
  - simpl. intros b [= <-]. unfold wait. lia.
  - rewrite encodeCalls_encodeNow. by apply spaced_snoc.
  - rewrite encodeCalls_encodeNow, last_snoc. intros c [= <-]. simpl. lia.
Qed.

Lemma gate_ok_updateEncodedBody w : gate_ok w → gate_ok (updateEncodedBody w).
Proof.
  intros [Ht Hs Hl]. unfold updateEncodedBody.
  destruct (timer (throttle w)) as [b|] eqn:Hb.
  - by split.
  - by apply gate_ok_run.
Qed.

Lemma gate_ok_fireIfDue target w : gate_ok w → gate_ok (fireIfDue target w).
Proof.
  intros H. unfold fireIfDue.
  destruct (timer (throttle w)) as [b|] eqn:Hb; [|done].
  destruct (b <=? target)%N; [|done].
  destruct H as [Ht Hs Hl]. rewrite Hb in Hl.
  unfold timerExpired. simpl. destruct (lastArgs (throttle w)).
  - by apply (gate_ok_run (set_now b w)).
  - by split.
Qed.

(** After two rounds no timer is due any more. *)
Lemma fireIfDue_twice_timer target w boundary :
  gate_ok w →
  timer (throttle (fireIfDue target (fireIfDue target w))) = Some boundary →
  (target < boundary)%N.
Proof.
  intros [Ht _ _]. unfold fireIfDue at 2.
  destruct (timer (throttle w)) as [b|] eqn:Hb.
  - destruct (b <=? target)%N eqn:Hdue.
    + unfold timerExpired. simpl. destruct (lastArgs (throttle w)).
      * unfold fireIfDue. simpl.
        destruct (b + wait <=? target)%N eqn:Hdue2; [done|].
        apply N.leb_gt in Hdue2. simpl. intros [= <-]. lia.
      * unfold fireIfDue. by simpl.
    + unfold fireIfDue. rewrite Hb, Hdue. apply N.leb_gt in Hdue.
      rewrite Hb. intros [= <-]. lia.
  - unfold fireIfDue. rewrite Hb. simpl. by rewrite Hb.
Qed.

Lemma fireIfDue_now target w :
  (now w <= target)%N → (now (fireIfDue target w) <= target)%N.
Proof.
  intros Hn. unfold fireIfDue. destruct (timer (throttle w)) as [b|]; [|done].
  destruct (b <=? target)%N eqn:Hdue; [|done].
  apply N.leb_le in Hdue.
  unfold timerExpired. simpl. destruct (lastArgs (throttle w)); simpl; lia.
Qed.

Lemma gate_ok_elapse dt w : gate_ok w → gate_ok (elapse dt w).
Proof.
  intros H. unfold elapse. set (target := (now w + dt)%N).
  pose proof (fireIfDue_twice_timer target w) as Htimer.
  assert (now (fireIfDue target (fireIfDue target w)) <= target)%N as Hnow
    by (do 2 apply fireIfDue_now; lia).
  pose proof (gate_ok_fireIfDue target _ (gate_ok_fireIfDue target _ H))
    as [Ht Hs Hl].
  split; simpl.
  - intros b Hb. by apply (Htimer b).
  - done.
  - intros c Hc. specialize (Hl c Hc).
    destruct (timer (throttle _)); [done | lia].
Qed.

Lemma gate_ok_new d e h t0 : gate_ok (new_EditableBody d e h t0).
Proof.
  destruct e as [e|]; simpl.
  - by split.
  - by apply gate_ok_updateEncodedBody.
Qed.

Lemma gate_ok_step w ev : gate_ok w → gate_ok (step w ev).
Proof.
  intros H. destruct ev as [b|h|dt|p outcome]; simpl.
  - unfold updateDecodedBody. destruct (same_object _ _).
    + by destruct H.
    + apply gate_ok_updateEncodedBody. by destruct H.
  - unfold headerChanged. destruct (decide _).
    + by destruct H.
    + apply gate_ok_updateEncodedBody. by destruct H.
  - by apply gate_ok_elapse.
  - unfold encodeSettled.
    destruct (promises w !! p) as [[[call|] []]|] eqn:Hp; try done.
    destruct H as [Ht Hs Hl].
    split; rewrite ?(encodeCalls_resumeTask _ _ _ _ Hp),
      ?resumeTask_throttle, ?resumeTask_now; done.
Qed.

Lemma reachable_gate_ok w : reachable w → gate_ok w.
Proof. induction 1; [apply gate_ok_new | by apply gate_ok_step]. Qed.

(** ** Settling an encoding task *)

Lemma reachable_run w evs : reachable w → reachable (run w evs).
Proof.
  revert w. induction evs as [|ev evs IH]; intros w H; simpl; [done|].
  apply IH. by constructor.
Qed.

Lemma run_cons w ev evs : run w (ev :: evs) = run (step w ev) evs.
Proof. done. Qed.

Lemma run_nil w : run w [] = w.
Proof. done. Qed.

Lemma settle_current p call outcome w :
  promises w !! p = Some (mkPromise (Some call) Pending) →
  _encodingPromise w = p →
  _encodedBody (step w (EncodeSettled p outcome)) = Some (candidate outcome w).
Proof.
  intros Hp Hcur. simpl. unfold encodeSettled. rewrite Hp.
  unfold resumeTask. destruct outcome; simpl; by rewrite Hcur, Nat.eqb_refl.
Qed.

Lemma settle_stale p outcome w :
  _encodingPromise w ≠ p →
  _encodedBody (step w (EncodeSettled p outcome)) = _encodedBody w.
Proof.
  intros Hne. simpl. unfold encodeSettled.
  destruct (promises w !! p) as [[[call|] []]|]; try done.
  apply Nat.eqb_neq in Hne.
  unfold resumeTask. destruct outcome; simpl; by rewrite Hne.
Qed.

Lemma settle_await p call outcome w :
  promises w !! p = Some (mkPromise (Some call) Pending) →
  await (step w (EncodeSettled p outcome)) p = Some (Fulfilled (candidate outcome w)).
Proof.
  intros Hp. simpl. unfold encodeSettled, await. rewrite Hp.
  assert (p < length (promises w)) as Hlt by (by eapply lookup_lt_Some).
  unfold resumeTask. destruct outcome; simpl; case_match; simpl;
    by rewrite list_lookup_insert_eq.
Qed.

Lemma settle_decodedBody p outcome w :
  _decodedBody (step w (EncodeSettled p outcome)) = _decodedBody w.
Proof.
  simpl. unfold encodeSettled.
  destruct (promises w !! p) as [[[call|] []]|]; try done.
  apply resumeTask_decodedBody.
Qed.

Lemma settle_encodingPromise p outcome w :
  _encodingPromise (step w (EncodeSettled p outcome)) = _encodingPromise w.
Proof.
  simpl. unfold encodeSettled.
  destruct (promises w !! p) as [[[call|] []]|]; try done.
  apply resumeTask_encodingPromise.
Qed.

Lemma settle_other p q outcome w :
  p ≠ q →
  promises (step w (EncodeSettled p outcome)) !! q = promises w !! q.
Proof.
  intros Hne. simpl. unfold encodeSettled.
  destruct (promises w !! p) as [[[call|] []]|]; try done.
  unfold resumeTask. destruct outcome; simpl; case_match; simpl;
    by rewrite list_lookup_insert_ne.
Qed.

Lemma contentLength_eq w w' :
  _encodedBody w' = _encodedBody w → contentLength w' = contentLength w.
Proof. unfold contentLength. by intros ->. Qed.

(** ** The ordering of commits *)

(** C1, last scheduled wins: let A and B be encoding tasks of one object, A
    scheduled before B.  Promise identities are allotted in scheduling order,
    and a run of the recomputation makes its new promise the designated one
    in the same step in which it calls the encoder.  Once B has been scheduled, the completion of A never changes the
    committed body.  When B is the most recently scheduled task and its
    encoder call settles, B's result is committed, and it stays committed
    when A completes afterwards; if A completes first, B's result is
    committed all the same.  [contentLength] reports B's length in both
    orders. *)
Theorem C1_last_scheduled_wins (w : World) (pA pB : nat) :
  reachable w → pA < pB → pB < length (promises w) →
  (∀ v, let v' := encodeNow v in
        encoded v' = length (promises v) ∧
        promises v' !! encoded v' =
          Some (mkPromise (Some (mkCall (now v) (_decodedBody v) (contentEncodings v)))
                          Pending)) ∧
  (∀ outA, _encodedBody (step w (EncodeSettled pA outA)) = _encodedBody w) ∧
  (∀ callB outA outB,
     _encodingPromise w = pB →
     promises w !! pB = Some (mkPromise (Some callB) Pending) →
     let b_then_a := run w [EncodeSettled pB outB; EncodeSettled pA outA] in
     let a_then_b := run w [EncodeSettled pA outA; EncodeSettled pB outB] in
     _encodedBody (step w (EncodeSettled pB outB)) = Some (candidate outB w) ∧
     _encodedBody b_then_a = Some (candidate outB w) ∧
     contentLength b_then_a = byteLength (candidate outB w) ∧
     _encodedBody a_then_b = Some (candidate outB w) ∧
     contentLength a_then_b = byteLength (candidate outB w)).
Proof.
  intros Hr HAB HB. pose proof (reachable_heap_ok w Hr) as [Hptr _].
  assert (_encodingPromise w ≠ pA) as Hstale by lia.
  split; [|split].
  - intros v v'. split; [done|]. unfold v', encoded, encodeNow. simpl.
    by rewrite lookup_app_r, Nat.sub_diag.
  - intros outA. by apply settle_stale.
  - intros callB outA outB Hcur HpB b_then_a a_then_b.
    assert (_encodedBody b_then_a = Some (candidate outB w)) as Hba.
    { unfold b_then_a. rewrite !run_cons, run_nil. rewrite settle_stale.
      - by eapply settle_current.
      - by rewrite settle_encodingPromise. }
    assert (_encodedBody a_then_b = Some (candidate outB w)) as Hab.
    { unfold a_then_b. rewrite !run_cons, run_nil.
      rewrite (settle_current pB callB).
      - unfold candidate. destruct outB; [|done]. by rewrite settle_decodedBody.
      - rewrite settle_other; [done | lia].
      - by rewrite settle_encodingPromise. }
    split; [by eapply settle_current|].
    unfold contentLength. by rewrite Hba, Hab.
Qed.

(** C4, stale tasks are discarded but still resolve: when the encoder call of
    a task that is no longer the one [_encodingPromise] designates settles,
    the committed body and [contentLength] stay as they were, and the task's
    own promise is fulfilled with the candidate bytes it computed. *)
Theorem C4_stale_task_discarded (w : World) (p : nat) (call : EncodeCall)
    (outcome : Error + Buffer) :
  promises w !! p = Some (mkPromise (Some call) Pending) →
  _encodingPromise w ≠ p →
  let w' := step w (EncodeSettled p outcome) in
  _encodedBody w' = _encodedBody w ∧
  contentLength w' = contentLength w ∧
  await w' p = Some (Fulfilled (candidate outcome w)).
Proof.
  intros Hp Hstale w'. unfold w'.
  pose proof (settle_stale p outcome w Hstale) as Hframe.
  split; [done|]. split; [by apply contentLength_eq|].
  by eapply settle_await.
Qed.

(** ** Failure of the encoder *)

(** C2 as amended, fail-open: if the encoder call of the task scheduled with
    payload d and encodings s rejects while that task is still the most
    recently scheduled one, the committed body becomes the decoded payload
    held at that moment (so [contentLength] is its byte length), which is d
    whenever the decoded payload is still d; [logError] is called exactly
    once, with s as the encodings, and a later settlement of the same call
    has no effect at all. *)
Theorem C2_fail_open (w : World) (p : nat) (t : N) (d : Buffer)
    (s : list string) (e : Error) :
  promises w !! p = Some (mkPromise (Some (mkCall t d s)) Pending) →
  _encodingPromise w = p →
  let w' := step w (EncodeSettled p (inl e)) in
  _encodedBody w' = Some (_decodedBody w) ∧
  contentLength w' = byteLength (_decodedBody w) ∧
  (_decodedBody w = d → _encodedBody w' = Some d ∧ contentLength w' = byteLength d) ∧
  errors w' = errors w ++ [(e, s)] ∧
  (∀ outcome, step w' (EncodeSettled p outcome) = w').
Proof.
  intros Hp Hcur w'.
  assert (_encodedBody w' = Some (_decodedBody w)) as Hbody
    by (by apply (settle_current p (mkCall t d s) (inl e) w)).
  assert (contentLength w' = byteLength (_decodedBody w)) as Hlen
    by (unfold contentLength; by rewrite Hbody).
  split; [done|]. split; [done|]. split; [by intros <-|]. split.
  - unfold w'. simpl. unfold encodeSettled. rewrite Hp. unfold resumeTask.
    simpl. by case_match.
  - intros outcome. simpl. unfold encodeSettled.
    pose proof (settle_await p _ (inl e) w Hp) as Hawait.
    unfold await in Hawait. fold w' in Hawait.
    destruct (promises w' !! p) as [[[c|] st]|]; simpl in Hawait; by simplify_eq.
Qed.

(** C3, failures are absorbed: in every world the object can reach, the
    promise returned by [encoded] exists and is pending or fulfilled, no
    promise of the object is rejected, and when the encoder call of a pending
    task settles, by fulfilment or by rejection, the task's promise is
    fulfilled with bytes (the decoded payload when the encoder failed). *)
Theorem C3_never_rejects (w : World) :
  reachable w →
  (await w (encoded w) = Some Pending ∨
   ∃ bytes, await w (encoded w) = Some (Fulfilled bytes)) ∧
  (∀ p e, await w p ≠ Some (Rejected e)) ∧
  (∀ p call outcome,
     promises w !! p = Some (mkPromise (Some call) Pending) →
     await (step w (EncodeSettled p outcome)) p = Some (Fulfilled (candidate outcome w))) ∧
  (∀ p call e,
     promises w !! p = Some (mkPromise (Some call) Pending) →
     await (step w (EncodeSettled p (inl e))) p = Some (Fulfilled (_decodedBody w))).
Proof.
  intros Hr. pose proof (reachable_heap_ok w Hr) as [Hptr Hstates].
  rewrite Forall_lookup in Hstates.
  assert (∀ p e, await w p ≠ Some (Rejected e)) as Hnever.
  { intros p e. unfold await.
    destruct (promises w !! p) as [pr|] eqn:Hp; [|done]. simpl.
    specialize (Hstates p pr Hp). unfold promise_ok in Hstates.
    intros [= Hst]. by rewrite Hst in Hstates. }
  split; [|split; [done|split]].
  - unfold encoded. specialize (Hnever (_encodingPromise w)). unfold await in *.
    destruct (lookup_lt_is_Some_2 (promises w) (_encodingPromise w)) as [pr Hpr];
      [lia|].
    rewrite Hpr in *. simpl in *.
    destruct (promise_state pr) as [|bytes|e]; [by left | right; by exists bytes|].
    by destruct (Hnever e).
  - intros p call outcome Hp. by eapply settle_await.
  - intros p call e Hp. by apply (settle_await p call (inl e)).
Qed.

(** ** The decoded body *)

(** C9, decoded accessor: in any world, whatever happened before,
    [updateDecodedBody newBody] is total, yields only the next world, and
    [decoded] then returns exactly [newBody]. *)
Theorem C9_decoded_after_update (w : World) (newBody : Buffer) :
  decoded (step w (UpdateDecodedBody newBody)) = newBody ∧
  (∀ d e h t0 evs,
     decoded (step (run (new_EditableBody d e h t0) evs) (UpdateDecodedBody newBody))
     = newBody).
Proof.
  assert (∀ w0, decoded (step w0 (UpdateDecodedBody newBody)) = newBody) as H.
  { intros w0. unfold decoded. simpl. unfold updateDecodedBody.
    destruct (same_object _ _); [done|]. unfold updateEncodedBody.
    simpl. by destruct (timer (throttle w0)). }
  split; [apply H|]. intros. apply H.
Qed.

(** C10, frame property: [updateDecodedBody] leaves the committed encoded body
    and [contentLength] as they were (0 when nothing was ever committed);
    the only step that can change the committed body is the settling of the
    encoder call of a pending task that is the one [_encodingPromise]
    designates. *)
Theorem C10_update_keeps_encoded (w : World) (newBody : Buffer) :
  _encodedBody (step w (UpdateDecodedBody newBody)) = _encodedBody w ∧
  contentLength (step w (UpdateDecodedBody newBody)) = contentLength w ∧
  (_encodedBody w = None → contentLength (step w (UpdateDecodedBody newBody)) = 0) ∧
  (∀ ev, _encodedBody (step w ev) ≠ _encodedBody w →
     ∃ p call outcome,
       ev = EncodeSettled p outcome ∧
       promises w !! p = Some (mkPromise (Some call) Pending) ∧
       _encodingPromise w = p).
Proof.
  pose proof (updateDecodedBody_encodedBody newBody w) as Hframe.
  split; [done|]. split; [by apply contentLength_eq|]. split.
  - intros Hnone. simpl. unfold contentLength. by rewrite Hframe, Hnone.
  - intros [b|h|dt|p outcome] Hchg; cbn [step] in Hchg.
    + by rewrite updateDecodedBody_encodedBody in Hchg.
    + by rewrite headerChanged_encodedBody in Hchg.
    + by rewrite elapse_encodedBody in Hchg.
    + unfold encodeSettled in Hchg.
      destruct (promises w !! p) as [[[call|] []]|] eqn:Hp; try done.
      destruct (decide (_encodingPromise w = p)) as [Hcur|Hstale].
      * by exists p, call, outcome.
      * exfalso. apply Hchg.
        pose proof (settle_stale p outcome w Hstale) as Hs.
        simpl in Hs. unfold encodeSettled in Hs. by rewrite Hp in Hs.
Qed.

(** ** The throttled recomputation *)

Lemma spaced_lt calls i j ci cj :
  spaced calls → i < j → calls !! i = Some ci → calls !! j = Some cj →
  (call_time ci + wait <= call_time cj)%N.
Proof.
  intros Hs. revert cj. induction j as [|j IH]; intros cj Hij Hi Hj; [lia|].
  destruct (decide (i = j)) as [->|Hne].
  - by eapply spaced_lookup.
  - destruct (lookup_lt_is_Some_2 calls j) as [c Hc].
    { apply lookup_lt_Some in Hj. lia. }
    assert (call_time ci + wait <= call_time c)%N by (apply IH; [lia|done..]).
    assert (call_time c + wait <= call_time cj)%N by (by eapply spaced_lookup).
    lia.
Qed.

Lemma update_new_object_quiet b w :
  timer (throttle w) = None → same_object b (_decodedBody w) = false →
  step w (UpdateDecodedBody b) =
  encodeNow (set_throttle (mkThrottle (Some (now w + wait)%N) false)
                          (set_decodedBody b w)).
Proof.
  intros Ht Hb. simpl. unfold updateDecodedBody, updateEncodedBody.
  rewrite Hb. simpl. by rewrite Ht.
Qed.

Lemma update_new_object_open b w boundary :
  timer (throttle w) = Some boundary → same_object b (_decodedBody w) = false →
  step w (UpdateDecodedBody b) =
  set_throttle (mkThrottle (Some boundary) true) (set_decodedBody b w).
Proof.
  intros Ht Hb. simpl. unfold updateDecodedBody, updateEncodedBody.
  rewrite Hb. simpl. by rewrite Ht.
Qed.

Lemma update_same_object b w :
  same_object b (_decodedBody w) = true →
  step w (UpdateDecodedBody b) = set_decodedBody b w.
Proof. intros Hb. simpl. unfold updateDecodedBody. by rewrite Hb. Qed.

Lemma elapse_inside dt w boundary :
  timer (throttle w) = Some boundary → (now w + dt < boundary)%N →
  step w (Elapse dt) = set_now (now w + dt)%N w.
Proof.
  intros Ht Hlt. apply N.leb_gt in Hlt. simpl. unfold elapse, fireIfDue.
  rewrite Ht, Hlt. simpl. by rewrite Ht, Hlt.
Qed.

Lemma elapse_quiet dt w :
  timer (throttle w) = None → step w (Elapse dt) = set_now (now w + dt)%N w.
Proof.
  intros Ht. simpl. unfold elapse, fireIfDue. rewrite Ht. simpl. by rewrite Ht.
Qed.

Lemma header_when_queued h w boundary :
  throttle w = mkThrottle (Some boundary) true →
  step w (HeaderChanged h) = set_header h w.
Proof.
  intros Ht. simpl. unfold headerChanged. destruct (decide _); [done|].
  unfold updateEncodedBody. simpl. rewrite Ht. simpl.
  destruct w. simpl in *. by rewrite Ht.
Qed.

Lemma elapse_trailing dt w boundary :
  throttle w = mkThrottle (Some boundary) true →
  (boundary <= now w + dt)%N →
  encodeCalls (step w (Elapse dt)) =
  encodeCalls w ++ [mkCall boundary (_decodedBody w) (contentEncodings w)].
Proof.
  intros Ht Hdue. apply N.leb_le in Hdue. simpl. unfold elapse.
  unfold fireIfDue at 2. rewrite Ht. simpl. rewrite Hdue.
  unfold timerExpired. simpl. rewrite Ht. simpl.
  unfold fireIfDue. simpl.
  destruct (boundary + wait <=? now w + dt)%N; unfold encodeCalls; simpl;
    by rewrite omap_app.
Qed.

(** C5 as amended, throttled coalescence: any two runs of the recomputation
    are at least one interval apart.  Take three calls of [updateDecodedBody]
    that fall into one interval, each of them handing over a Buffer object
    other than the one held (the reaction on [_decodedBody] fires on a change
    of reference only).  From a quiet gate the first call runs the encoder at
    once and the two others add nothing until the interval boundary, where a
    single run takes place; inside an open interval none of the three runs the
    encoder and a single run takes place at the boundary.  That run encodes
    the last payload handed over with the encodings of the header as it is at
    the boundary.  A call that hands over the object already held runs
    nothing and queues nothing. *)
Theorem C5_throttled_coalescence (w : World) :
  reachable w →
  (∀ i j ci cj, i < j →
     encodeCalls w !! i = Some ci → encodeCalls w !! j = Some cj →
     (call_time ci + wait <= call_time cj)%N) ∧
  (∀ b1 b2 b3 dt1 dt2 dt3 h,
     same_object b1 (_decodedBody w) = false →
     same_object b2 b1 = false →
     same_object b3 b2 = false →
     let calls := [UpdateDecodedBody b1; Elapse dt1; UpdateDecodedBody b2;
                   Elapse dt2; UpdateDecodedBody b3; HeaderChanged h] in
     (timer (throttle w) = None →
      (dt1 + dt2 < wait)%N → (wait <= dt1 + dt2 + dt3)%N →
      encodeCalls (run w calls) =
        encodeCalls w ++ [mkCall (now w) b1 (contentEncodings w)] ∧
      encodeCalls (run w (calls ++ [Elapse dt3])) =
        encodeCalls w ++ [mkCall (now w) b1 (contentEncodings w);
                          mkCall (now w + wait) b3 (asHeaderArray h)]) ∧
     (∀ boundary, timer (throttle w) = Some boundary →
      (now w + dt1 + dt2 < boundary)%N → (boundary <= now w + dt1 + dt2 + dt3)%N →
      encodeCalls (run w calls) = encodeCalls w ∧
      encodeCalls (run w (calls ++ [Elapse dt3])) =
        encodeCalls w ++ [mkCall boundary b3 (asHeaderArray h)])) ∧
  (∀ b, same_object b (_decodedBody w) = true →
     encodeCalls (step w (UpdateDecodedBody b)) = encodeCalls w ∧
     throttle (step w (UpdateDecodedBody b)) = throttle w).
Proof.
  intros Hr. split; [|split].
  { intros i j ci cj. apply spaced_lt. by destruct (reachable_gate_ok w Hr). }
  2: { intros b Hb. by rewrite update_same_object. }
  intros b1 b2 b3 dt1 dt2 dt3 h H1 H2 H3 calls. split.
  - intros Hquiet Hin Hout. unfold calls. simpl app.
    rewrite !run_cons, !run_nil.
    rewrite (update_new_object_quiet b1 w) by done.
    set (w1 := encodeNow _).
    rewrite (elapse_inside dt1 w1 (now w + wait)%N) by (simpl; first [done | lia]).
    set (w2 := set_now _ w1).
    rewrite (update_new_object_open b2 w2 (now w + wait)%N) by done.
    set (w3 := set_throttle _ _).
    rewrite (elapse_inside dt2 w3 (now w + wait)%N) by (simpl; first [done | lia]).
    set (w4 := set_now _ w3).
    rewrite (update_new_object_open b3 w4 (now w + wait)%N) by done.
    set (w5 := set_throttle _ _).
    rewrite (header_when_queued h w5 (now w + wait)%N) by done.
    split.
    + unfold encodeCalls. simpl. by rewrite omap_app.
    + rewrite (elapse_trailing dt3 _ (now w + wait)%N) by (simpl; first [done | lia]).
      unfold encodeCalls. simpl. rewrite omap_app. simpl.
      by rewrite <- app_assoc.
  - intros boundary Hopen Hin Hout. unfold calls. simpl app.
    rewrite !run_cons, !run_nil.
    rewrite (update_new_object_open b1 w boundary) by done.
    set (w1 := set_throttle _ _).
    rewrite (elapse_inside dt1 w1 boundary) by (simpl; first [done | lia]).
    set (w2 := set_now _ w1).
    rewrite (update_new_object_open b2 w2 boundary) by done.
    set (w3 := set_throttle _ _).
    rewrite (elapse_inside dt2 w3 boundary) by (simpl; first [done | lia]).
    set (w4 := set_now _ w3).
    rewrite (update_new_object_open b3 w4 boundary) by done.
    set (w5 := set_throttle _ _).
    rewrite (header_when_queued h w5 boundary) by done.
    split; [done|].
    by rewrite (elapse_trailing dt3 _ boundary) by (simpl; first [done | lia]).
Qed.

(** ** Construction *)

Lemma untouched_step h e w ev :
  untouched h e w → no_trigger h ev → untouched h e (step w ev).
Proof.
  intros (Ht & Hps & Hh & He) Hev. destruct ev as [b|h'|dt|p outcome].
  - done.
  - simpl in Hev. cbn [step]. unfold headerChanged.
    destruct (decide _) as [_|Hne].
    + repeat split; try done; unfold contentEncodings; simpl; by rewrite Hev.
    + exfalso. apply Hne. unfold contentEncodings in *. simpl. congruence.
  - rewrite elapse_quiet by done. by repeat split.
  - cbn [step]. unfold encodeSettled.
    destruct (promises w !! p) as [[[call|] []]|] eqn:Hp; try done.
    rewrite Forall_lookup in Hps. by specialize (Hps p _ Hp).
Qed.

Lemma untouched_run h e evs w :
  untouched h e w → Forall (no_trigger h) evs → untouched h e (run w evs).
Proof.
  revert w. induction evs as [|ev evs IH]; intros w Hw Hevs; [done|].
  inversion Hevs; subst. rewrite run_cons. apply IH; [|done].
  by apply untouched_step.
Qed.

Lemma untouched_encodeCalls h e w : untouched h e w → encodeCalls w = [].
Proof.
  intros (_ & Hps & _). unfold encodeCalls.
  induction Hps as [|pr ps Hpr _ IH]; [done|]. simpl. by rewrite Hpr.
Qed.

(** C6, seeded construction skips the recomputation: built with both an
    initial decoded and an initial encoded body, the object has made no call
    to the encoder, holds the given encoded bytes as committed body and as
    the value of the promise [encoded] returns, and makes no call to the
    encoder as long as no call of [updateDecodedBody] and no change of the
    encodings occurs; the first such trigger runs the encoder.  Built without
    an initial encoded body, it calls the encoder at once. *)
Theorem C6_seeded_construction (d e : Buffer) (h : HeaderValue) (t0 : N) :
  let w := new_EditableBody d (Some e) h t0 in
  encodeCalls w = [] ∧
  _encodedBody w = Some e ∧
  contentLength w = byteLength e ∧
  await w (encoded w) = Some (Fulfilled e) ∧
  (∀ evs, Forall (no_trigger h) evs →
     encodeCalls (run w evs) = [] ∧ _encodedBody (run w evs) = Some e) ∧
  (∀ b, same_object b d = false →
     encodeCalls (step w (UpdateDecodedBody b)) = [mkCall t0 b (asHeaderArray h)]) ∧
  (∀ h', asHeaderArray h' ≠ asHeaderArray h →
     encodeCalls (step w (HeaderChanged h')) = [mkCall t0 d (asHeaderArray h')]) ∧
  encodeCalls (new_EditableBody d None h t0) = [mkCall t0 d (asHeaderArray h)] ∧
  await (new_EditableBody d None h t0) (encoded (new_EditableBody d None h t0))
    = Some Pending.
Proof.
  intros w.
  assert (untouched h e w) as Hw by (repeat split; by repeat constructor).
  repeat split; try done.
  - eapply untouched_encodeCalls, untouched_run; done.
  - by destruct (untouched_run h e evs w Hw H) as (_ & _ & _ & ?).
  - intros b Hb. by rewrite update_new_object_quiet.
  - intros h' Hh'. cbn [step]. unfold headerChanged.
    destruct (decide _) as [Heq|_]; [by destruct Hh' | done].
Qed.

(** ** The encodings *)

(** C7, header equality: a new header value that normalises to the same
    ordered sequence of encodings as the one before schedules nothing: no
    call to the encoder, the same promises, the same [encoded] promise, the
    same gate, so no later run either.  A value that normalises to another
    sequence calls the throttled recomputation: from a quiet gate the encoder
    is called at once with the new encodings and [encoded] is a new promise;
    inside an interval the call is queued for the boundary. *)
Theorem C7_header_equality (w : World) (h : HeaderValue) :
  (asHeaderArray h = contentEncodings w →
     encodeCalls (step w (HeaderChanged h)) = encodeCalls w ∧
     promises (step w (HeaderChanged h)) = promises w ∧
     encoded (step w (HeaderChanged h)) = encoded w ∧
     throttle (step w (HeaderChanged h)) = throttle w) ∧
  (asHeaderArray h ≠ contentEncodings w →
     (timer (throttle w) = None →
        encodeCalls (step w (HeaderChanged h)) =
          encodeCalls w ++ [mkCall (now w) (_decodedBody w) (asHeaderArray h)] ∧
        encoded (step w (HeaderChanged h)) = length (promises w)) ∧
     (∀ boundary, timer (throttle w) = Some boundary →
        throttle (step w (HeaderChanged h)) = mkThrottle (Some boundary) true)).
Proof.
  cbn [step]. unfold headerChanged. split.
  - intros Heq. destruct (decide _) as [_|Hne]; [done|].
    by destruct Hne.
  - intros Hne. destruct (decide _) as [Heq|_]; [by destruct Hne|].
    unfold updateEncodedBody. simpl. split.
    + intros ->. split; [|done]. unfold encodeCalls. simpl. by rewrite omap_app.
    + by intros boundary ->.
Qed.

(** C8, no-encoding passthrough: with an empty sequence of encodings a run of
    the recomputation still calls the encoder, on the decoded body and the
    empty sequence; if the encoder returns its input unchanged, the committed
    body is that decoded body and [contentLength] is the decoded byte
    length.  In particular for an object built without an encoded body. *)
Theorem C8_no_encoding_passthrough (w : World) :
  contentEncodings w = [] →
  let w1 := encodeNow w in
  let w2 := step w1 (EncodeSettled (encoded w1) (inr (_decodedBody w))) in
  encodeCalls w1 = encodeCalls w ++ [mkCall (now w) (_decodedBody w) []] ∧
  _encodedBody w2 = Some (decoded w2) ∧
  contentLength w2 = byteLength (decoded w2) ∧
  (∀ d h t0, asHeaderArray h = [] →
     let c := new_EditableBody d None h t0 in
     let c' := step c (EncodeSettled (encoded c) (inr d)) in
     encodeCalls c = [mkCall t0 d []] ∧
     _encodedBody c' = Some d ∧
     contentLength c' = byteLength (decoded c')).
Proof.
  intros Hempty w1 w2.
  assert (∀ v, let v1 := encodeNow v in
               let v2 := step v1 (EncodeSettled (encoded v1) (inr (_decodedBody v))) in
               _encodedBody v2 = Some (_decodedBody v) ∧ decoded v2 = _decodedBody v)
    as Hcommit.
  { intros v v1 v2. split.
    - unfold v2. erewrite settle_current; [done| |done].
      unfold v1, encoded, encodeNow. simpl.
      by rewrite lookup_app_r, Nat.sub_diag.
    - unfold v2, decoded. by rewrite settle_decodedBody. }
  destruct (Hcommit w) as [Hbody Hdec]. fold w1 w2 in Hbody, Hdec.
  split; [unfold w1; by rewrite encodeCalls_encodeNow, Hempty|].
  split; [by rewrite Hdec|].
  split; [unfold contentLength; by rewrite Hbody, Hdec|].
  intros d h t0 Hh c c'.
  split.
  { unfold c, new_EditableBody, updateEncodedBody. cbn [timer throttle].
    rewrite encodeCalls_encodeNow. unfold contentEncodings. simpl.
    by rewrite Hh. }
  by split.
Qed.

(** ** Further properties of the object *)

(** What one step does to the heap, the error log and the committed body:
    nothing, or one run of the recomputation, or the continuation of one
    pending task. *)
Lemma step_shape w ev :
  (promises (step w ev) = promises w ∧ errors (step w ev) = errors w ∧
   _encodedBody (step w ev) = _encodedBody w ∧
   _encodingPromise (step w ev) = _encodingPromise w) ∨
  (∃ t, promises (step w ev) =
          promises w ++ [mkPromise (Some (mkCall t (_decodedBody (step w ev))
                                                 (contentEncodings (step w ev))))
                                   Pending] ∧
        errors (step w ev) = errors w ∧
        _encodedBody (step w ev) = _encodedBody w ∧
        _encodingPromise (step w ev) = length (promises w)) ∨
  (∃ p call outcome,
     ev = EncodeSettled p outcome ∧
     promises w !! p = Some (mkPromise (Some call) Pending) ∧
     step w ev = resumeTask p call outcome w).
Proof.
  destruct ev as [b|h|dt|p outcome]; cbn [step].
  - unfold updateDecodedBody. destruct (same_object _ _); [by left|].
    unfold updateEncodedBody. simpl.
    destruct (timer (throttle w)); [by left|]. right; left. by exists (now w).
  - unfold headerChanged. destruct (decide _); [by left|].
    unfold updateEncodedBody. simpl.
    destruct (timer (throttle w)); [by left|]. right; left. by exists (now w).
  - unfold elapse, fireIfDue, timerExpired.
    destruct (timer (throttle w)) as [b|] eqn:Ht; simpl; rewrite ?Ht; [|by left].
    destruct (b <=? now w + dt)%N eqn:Hdue; simpl; rewrite ?Ht, ?Hdue; [|by left].
    destruct (lastArgs (throttle w)) eqn:Hq; simpl; [|by left].
    right; left. exists b.
    by destruct (b + wait <=? now w + dt)%N.
  - unfold encodeSettled.
    destruct (promises w !! p) as [[[call|] []]|] eqn:Hp; try by left.
    right; right. by exists p, call, outcome.
Qed.

Lemma resumeTask_promises p call outcome w :
  promises (resumeTask p call outcome w) =
  <[p := mkPromise (Some call) (Fulfilled (candidate outcome w))]> (promises w).
Proof. by_outcome. Qed.

Lemma resumeTask_encodedBody p call outcome w :
  _encodedBody (resumeTask p call outcome w) =
  if Nat.eqb (_encodingPromise w) p then Some (candidate outcome w)
  else _encodedBody w.
Proof. by_outcome. Qed.

Lemma resumeTask_errors p call outcome w :
  errors (resumeTask p call outcome w) =
  match outcome with
  | inl e => errors w ++ [(e, call_encodings call)]
  | inr _ => errors w
  end.
Proof. by_outcome. Qed.

Lemma await_fulfilled_step w ev p b :
  await w p = Some (Fulfilled b) → await (step w ev) p = Some (Fulfilled b).
Proof.
  unfold await. intros Hp.
  destruct (promises w !! p) as [pr|] eqn:Hpr; [|done].
  destruct (step_shape w ev) as [(-> & _)|[(t & -> & _)|(q & call & outcome & _ & Hq & ->)]].
  - by rewrite Hpr.
  - by rewrite (lookup_app_l_Some _ _ _ _ Hpr).
  - rewrite resumeTask_promises, list_lookup_insert_ne; [by rewrite Hpr|].
    intros ->. rewrite Hq in Hpr. by simplify_eq.
Qed.

(** X1, the decoded body belongs to its owner: after [updateDecodedBody b],
    whatever follows (results and failures of the encoder, header changes,
    timers), [decoded] is [b] until the next call of [updateDecodedBody]. *)
Theorem decoded_written_by_update_only (w : World) (b : Buffer) (evs : list Event) :
  Forall (λ ev, is_update ev = false) evs →
  decoded (run (step w (UpdateDecodedBody b)) evs) = b.
Proof.
  intros Hevs.
  assert (decoded (step w (UpdateDecodedBody b)) = b) as Hb.
  { unfold decoded. cbn [step]. unfold updateDecodedBody.
    destruct (same_object _ _); [done|]. unfold updateEncodedBody. simpl.
    by destruct (timer (throttle w)). }
  revert Hb. generalize (step w (UpdateDecodedBody b)). clear w.
  induction Hevs as [|ev evs Hev _ IH]; intros w Hw; [done|].
  rewrite run_cons. apply IH. rewrite <- Hw. unfold decoded.
  destruct ev as [b'|h|dt|p outcome]; [done| | |]; cbn [step].
  - unfold headerChanged. destruct (decide _); [done|].
    unfold updateEncodedBody. simpl. by destruct (timer (throttle w)).
  - by_cases.
  - apply (settle_decodedBody p outcome w).
Qed.

(** X2, the resolved handle is the committed body: in every reachable world,
    if the promise [encoded] returns is fulfilled, its value is the committed
    encoded body, and [contentLength] is the length of that value. *)
Theorem encoded_value_is_committed (w : World) (b : Buffer) :
  reachable w →
  await w (encoded w) = Some (Fulfilled b) →
  _encodedBody w = Some b ∧ contentLength w = byteLength b.
Proof.
  intros Hr Hb.
  assert (_encodedBody w = Some b) as H;
    [|split; [done | unfold contentLength; by rewrite H]].
  revert b Hb. induction Hr as [d [e|] h t0|w ev Hr IH]; intros b.
  - unfold await, encoded. simpl. by intros [= ->].
  - by unfold await, encoded.
  - pose proof (reachable_heap_ok w Hr) as [Hptr _].
    unfold await, encoded in *.
    destruct (step_shape w ev)
      as [(-> & _ & -> & ->)|[(t & -> & _ & _ & ->)|(p & call & outcome & _ & Hp & ->)]].
    + apply IH.
    + by rewrite lookup_app_r, Nat.sub_diag.
    + rewrite resumeTask_promises, resumeTask_encodedBody,
        resumeTask_encodingPromise.
      pose proof (lookup_lt_Some _ _ _ Hp) as Hlt.
      destruct (Nat.eqb_spec (_encodingPromise w) p) as [->|Hne].
      * rewrite list_lookup_insert_eq by done. simpl. by intros [= ->].
      * rewrite list_lookup_insert_ne by done. apply IH.
Qed.

(** X3, a resolved promise keeps its value: once a promise of the object is
    fulfilled with [b], it is fulfilled with [b] after any further events;
    later tasks never overwrite it. *)
Theorem fulfilled_promise_is_stable (w : World) (p : nat) (b : Buffer)
    (evs : list Event) :
  await w p = Some (Fulfilled b) → await (run w evs) p = Some (Fulfilled b).
Proof.
  revert w. induction evs as [|ev evs IH]; intros w Hp; [done|].
  rewrite run_cons. by apply IH, await_fulfilled_step.
Qed.

Lemma filter_pending_insert (l : list ObservablePromise) p call b :
  l !! p = Some (mkPromise (Some call) Pending) →
  S (length (List.filter is_pending (<[p := mkPromise (Some call) (Fulfilled b)]> l)))
  = length (List.filter is_pending l).
Proof.
  revert p. induction l as [|a l IH]; intros [|p] Hp; simpl in *; try done.
  - by injection Hp as ->.
  - specialize (IH p Hp). destruct (is_pending a); simpl; lia.
Qed.

(** X4, one error report per failed call at most: in every reachable world
    the number of calls of [logError] plus the number of encoder calls still
    pending is at most the number of encoder calls made, and every logged
    context is the encodings of one of those calls. *)
Theorem errors_come_from_encoder_calls (w : World) :
  reachable w →
  length (errors w) + pendingTasks w ≤ length (encodeCalls w) ∧
  (∀ e s, (e, s) ∈ errors w → ∃ c, c ∈ encodeCalls w ∧ call_encodings c = s).
Proof.
  induction 1 as [d [e|] h t0|w ev Hr [IHn IHs]].
  - split; [done|]. intros e0 s Hin. by apply elem_of_nil in Hin.
  - split; [done|]. intros e0 s Hin. by apply elem_of_nil in Hin.
  - unfold pendingTasks, encodeCalls in *.
    destruct (step_shape w ev)
      as [(-> & -> & _)|[(t & -> & -> & _)|(p & call & outcome & _ & Hp & ->)]].
    + done.
    + split.
      * rewrite List.filter_app, omap_app, !length_app. simpl. lia.
      * intros e s Hin. destruct (IHs e s Hin) as (c & Hc & Hcs).
        exists c. split; [|done]. rewrite omap_app. apply elem_of_app. by left.
    + rewrite resumeTask_promises, resumeTask_errors.
      rewrite (omap_insert_same _ _ _ _ _ Hp) by done.
      pose proof (filter_pending_insert _ _ _ (candidate outcome w) Hp) as Hcount.
      split.
      * destruct outcome; rewrite ?length_app; simpl in *; lia.
      * intros e s Hin.
        assert ((e, s) ∈ errors w ∨ s = call_encodings call) as [Hold| ->].
        { destruct outcome; [|by left].
          apply elem_of_app in Hin as [Hin|Hin]; [by left|].
          apply list_elem_of_singleton in Hin. right. by simplify_eq. }
        -- by apply (IHs e s).
        -- exists call. split; [|done].
           apply list_elem_of_omap.
           exists (mkPromise (Some call) Pending). split; [|done].
           by eapply list_elem_of_lookup_2.
Qed.

(** X5, one encoder call per event at most, on the current state: a step
    either leaves the encoder calls and the promise [encoded] returns as they
    were, or makes exactly one call, whose arguments are the decoded body and
    the encodings the object holds after the step, and whose promise, still
    pending, is what [encoded] returns from then on. *)
Theorem encoder_called_on_current_state (w : World) (ev : Event) :
  let w' := step w ev in
  (encodeCalls w' = encodeCalls w ∧ encoded w' = encoded w) ∨
  (∃ t, encodeCalls w' = encodeCalls w ++ [mkCall t (decoded w') (contentEncodings w')] ∧
        encoded w' = length (promises w) ∧
        await w' (encoded w') = Some Pending).
Proof.
  intros w'. unfold w', encodeCalls, encoded, await, decoded.
  destruct (step_shape w ev)
    as [(-> & _ & _ & ->)|[(t & -> & _ & _ & ->)|(p & call & outcome & _ & Hp & ->)]].
  - by left.
  - right. exists t. rewrite omap_app. split; [done|]. split; [done|].
    by rewrite lookup_app_r, Nat.sub_diag.
  - left. rewrite resumeTask_promises, resumeTask_encodingPromise.
    by rewrite (omap_insert_same _ _ _ _ _ Hp).
Qed.

(** X6, nothing else is ever committed: in every reachable world the
    committed encoded body, if there is one, is the value one of the object's
    promises is fulfilled with (the initial encoded body, the result of an
    encoder call, or the decoded body that stood in for a failed call). *)
Theorem committed_body_is_a_promise_value (w : World) (b : Buffer) :
  reachable w →
  _encodedBody w = Some b →
  ∃ p, await w p = Some (Fulfilled b).
Proof.
  intros Hr. revert b. induction Hr as [d [e|] h t0|w ev Hr IH]; intros b.
  - simpl. intros [= ->]. by exists 0.
  - done.
  - intros Hb.
    destruct (step_shape w ev)
      as [(Hps & _ & He & _)|[(t & Hps & _ & He & _)|(p & call & outcome & -> & Hp & Hres)]].
    + rewrite He in Hb. destruct (IH b Hb) as [q Hq]. exists q.
      by apply await_fulfilled_step.
    + rewrite He in Hb. destruct (IH b Hb) as [q Hq]. exists q.
      by apply await_fulfilled_step.
    + rewrite Hres, resumeTask_encodedBody in Hb.
      destruct (Nat.eqb (_encodingPromise w) p).
      * injection Hb as <-. exists p. by eapply settle_await.
      * destruct (IH b Hb) as [q Hq]. exists q. by apply await_fulfilled_step.
Qed.

End EditableBody.

(** * Concrete worlds

    The theorems above on explicit objects, with [headerTokens] as the
    normaliser.  Payloads: "ab" and "xyz"; results of the encoder: "A" for
    the older task and "BB" for the newer. *)

(** Two overlapping tasks: the older one resolves last, the newer one wins. *)
Lemma C1_witness :
  let dA := mkBuffer 1 [x61; x62] in
  let dB := mkBuffer 2 [x78; x79; x7a] in
  let rA := mkBuffer 3 [x41] in
  let rB := mkBuffer 4 [x42; x42] in
  let w := run headerTokens
             (new_EditableBody headerTokens dA None (HeaderString "gzip") 0)
             [UpdateDecodedBody dB; Elapse 500] in
  reachable headerTokens w ∧ 0 < 1 ∧ 1 < length (promises w) ∧
  _encodedBody (run headerTokens w [EncodeSettled 1 (inr rB); EncodeSettled 0 (inr rA)])
    = Some rB ∧
  _encodedBody (run headerTokens w [EncodeSettled 0 (inr rA); EncodeSettled 1 (inr rB)])
    = Some rB.
Proof.
  intros dA dB rA rB w.
  assert (reachable headerTokens w) as Hr by apply reachable_run, reachable_new.
  assert (0 < 1) as H01 by lia.
  assert (1 < length (promises w)) as Hlen by (vm_compute; lia).
  destruct (C1_last_scheduled_wins headerTokens w 0 1 Hr H01 Hlen) as (_ & _ & H).
  destruct (H (mkCall 500 dB ["gzip"]) (inr rA) (inr rB) eq_refl eq_refl)
    as (_ & Hba & _ & Hab & _).
  repeat split; done.
Defined.

(** The committed body after a failure need not be the payload the failed
    task was scheduled with: it is the payload held when the failure is
    handled, and nothing is committed by a task that has been superseded. *)
Lemma C2_counterexample :
  let d := mkBuffer 1 [x61; x62] in
  let d' := mkBuffer 2 [x78; x79; x7a] in
  let c := new_EditableBody headerTokens d None (HeaderString "gzip") 0 in
  (* the payload is replaced inside the interval, then the encoder fails *)
  let w := run headerTokens c [UpdateDecodedBody d'] in
  (* a newer task is scheduled, then the older encoder call fails *)
  let v := run headerTokens c [UpdateDecodedBody d'; Elapse 500] in
  (promises w !! 0 = Some (mkPromise (Some (mkCall 0 d ["gzip"])) Pending) ∧
   encoded w = 0 ∧
   _encodedBody (step headerTokens w (EncodeSettled 0 (inl "encoder failed"))) = Some d' ∧
   _encodedBody (step headerTokens w (EncodeSettled 0 (inl "encoder failed"))) ≠ Some d) ∧
  (promises v !! 0 = Some (mkPromise (Some (mkCall 0 d ["gzip"])) Pending) ∧
   encoded v = 1 ∧
   _encodedBody (step headerTokens v (EncodeSettled 0 (inl "encoder failed"))) = None ∧
   _encodedBody (step headerTokens v (EncodeSettled 0 (inl "encoder failed"))) ≠ Some d).
Proof. vm_compute. repeat split; discriminate. Qed.

(** The only task of a new object fails: its payload is committed and the
    error is logged once, with the encodings of the task. *)
Lemma C2_witness :
  let d := mkBuffer 1 [x61; x62] in
  let w := new_EditableBody headerTokens d None (HeaderString "gzip, br") 7 in
  let w' := step headerTokens w (EncodeSettled 0 (inl "encoder failed")) in
  promises w !! 0 = Some (mkPromise (Some (mkCall 7 d ["gzip"; "br"])) Pending) ∧
  _encodingPromise w = 0 ∧
  _encodedBody w' = Some d ∧
  contentLength w' = 2 ∧
  errors w' = [("encoder failed", ["gzip"; "br"])].
Proof.
  intros d w w'.
  assert (promises w !! 0 = Some (mkPromise (Some (mkCall 7 d ["gzip"; "br"])) Pending))
    as Hp by reflexivity.
  assert (_encodingPromise w = 0) as Hcur by reflexivity.
  destruct (C2_fail_open headerTokens w 0 7 d ["gzip"; "br"] "encoder failed" Hp Hcur)
    as (Hbody & Hlen & _ & Herr & _).
  repeat split; done.
Defined.

(** The promise of a task whose encoder call rejects is fulfilled. *)
Lemma C3_witness :
  let d := mkBuffer 1 [x61; x62] in
  let w := new_EditableBody headerTokens d None (HeaderString "gzip") 0 in
  reachable headerTokens w ∧
  await w (encoded w) = Some Pending ∧
  await (step headerTokens w (EncodeSettled 0 (inl "encoder failed"))) 0
    = Some (Fulfilled d).
Proof.
  intros d w.
  assert (reachable headerTokens w) as Hr by apply reachable_new.
  destruct (C3_never_rejects headerTokens w Hr) as (_ & _ & _ & H).
  split; [done|]. split; [done|].
  exact (H 0 (mkCall 0 d ["gzip"]) "encoder failed" eq_refl).
Defined.

(** The older of two tasks resolves first: nothing is committed, its promise
    holds its result. *)
Lemma C4_witness :
  let dA := mkBuffer 1 [x61; x62] in
  let dB := mkBuffer 2 [x78; x79; x7a] in
  let rA := mkBuffer 3 [x41] in
  let w := run headerTokens
             (new_EditableBody headerTokens dA None (HeaderString "gzip") 0)
             [UpdateDecodedBody dB; Elapse 500] in
  let w' := step headerTokens w (EncodeSettled 0 (inr rA)) in
  promises w !! 0 = Some (mkPromise (Some (mkCall 0 dA ["gzip"])) Pending) ∧
  _encodingPromise w ≠ 0 ∧
  _encodedBody w' = None ∧ contentLength w' = 0 ∧
  await w' 0 = Some (Fulfilled rA).
Proof.
  intros dA dB rA w w'.
  assert (promises w !! 0 = Some (mkPromise (Some (mkCall 0 dA ["gzip"])) Pending))
    as Hp by reflexivity.
  assert (_encodingPromise w ≠ 0) as Hstale by (vm_compute; lia).
  destruct (C4_stale_task_discarded headerTokens w 0 _ (inr rA) Hp Hstale)
    as (Hbody & Hlen & Hawait).
  repeat split; done.
Defined.

(** Three calls of [updateDecodedBody] with the object already held, inside
    the interval opened by the constructor: no run beyond the leading one. *)
Lemma C5_counterexample :
  let d := mkBuffer 1 [x61; x62] in
  (* built without an encoded body: the leading run, at time 0 *)
  let c := new_EditableBody headerTokens d None HeaderUndefined 0 in
  (* three calls inside the interval, each with the object already held *)
  let w := run headerTokens c
             [UpdateDecodedBody d; Elapse 100; UpdateDecodedBody d; Elapse 100;
              UpdateDecodedBody d; Elapse 1000] in
  encodeCalls c = [mkCall 0 d []] ∧
  encodeCalls w = [mkCall 0 d []] ∧
  length (encodeCalls w) ≠ length (encodeCalls c) + 1.
Proof. vm_compute. repeat split; discriminate. Qed.

(** Three new payloads from a quiet gate: a leading run on the first, one
    trailing run on the third with the header as it is at the boundary. *)
Lemma C5_witness :
  let d := mkBuffer 1 [x61; x62] in
  let e := mkBuffer 2 [x41] in
  let b1 := mkBuffer 3 [x62] in
  let b2 := mkBuffer 4 [x63] in
  let b3 := mkBuffer 5 [x64] in
  let w := new_EditableBody headerTokens d (Some e) (HeaderString "gzip") 0 in
  reachable headerTokens w ∧
  encodeCalls
    (run headerTokens w
       [UpdateDecodedBody b1; Elapse 100; UpdateDecodedBody b2; Elapse 100;
        UpdateDecodedBody b3; HeaderChanged (HeaderString "br"); Elapse 300])
  = [mkCall 0 b1 ["gzip"]; mkCall 500 b3 ["br"]].
Proof.
  intros d e b1 b2 b3 w.
  assert (reachable headerTokens w) as Hr by apply reachable_new.
  split; [done|].
  destruct (C5_throttled_coalescence headerTokens w Hr) as (_ & H & _).
  destruct (H b1 b2 b3 100 100 300 (HeaderString "br") eq_refl eq_refl eq_refl)%N
    as [Hquiet _].
  by destruct (Hquiet eq_refl eq_refl ltac:(by vm_compute)) as [_ Htrail].
Defined.

(** Time, a stray settlement and an equivalent header leave a seeded object
    without any encoder call. *)
Lemma C6_witness :
  let d := mkBuffer 1 [x61; x62] in
  let e := mkBuffer 2 [x41] in
  let evs := [Elapse 1000; EncodeSettled 0 (inl "late");
              HeaderChanged (HeaderArray ["gzip"]); Elapse 20] in
  let w := new_EditableBody headerTokens d (Some e) (HeaderString "gzip") 0 in
  Forall (no_trigger headerTokens (HeaderString "gzip")) evs ∧
  encodeCalls (run headerTokens w evs) = [] ∧
  _encodedBody (run headerTokens w evs) = Some e.
Proof.
  intros d e evs w.
  assert (Forall (no_trigger headerTokens (HeaderString "gzip")) evs) as Hevs
    by (by repeat constructor).
  destruct (C6_seeded_construction headerTokens d e (HeaderString "gzip") 0)
    as (_ & _ & _ & _ & H & _).
  split; [done|]. exact (H evs Hevs).
Defined.

(** The string "gzip" and the one-element sequence with "gzip" are the same
    encodings: nothing is scheduled. *)
Lemma C7_witness :
  let d := mkBuffer 1 [x61; x62] in
  let w := new_EditableBody headerTokens d None (HeaderString "gzip") 0 in
  let w' := step headerTokens w (HeaderChanged (HeaderArray ["gzip"])) in
  headerTokens (HeaderArray ["gzip"]) = contentEncodings headerTokens w ∧
  encodeCalls w' = encodeCalls w ∧
  encoded w' = encoded w ∧
  throttle w' = throttle w.
Proof.
  intros d w w'.
  assert (headerTokens (HeaderArray ["gzip"]) = contentEncodings headerTokens w)
    as Hsame by reflexivity.
  destruct (C7_header_equality headerTokens w (HeaderArray ["gzip"])) as [H _].
  destruct (H Hsame) as (Hcalls & _ & Henc & Hgate).
  repeat split; done.
Defined.

(** No header at all: the encoder is called with no encodings. *)
Lemma C8_witness :
  let d := mkBuffer 1 [x61; x62] in
  let e := mkBuffer 2 [x41] in
  let w := new_EditableBody headerTokens d (Some e) HeaderUndefined 0 in
  let w1 := encodeNow headerTokens w in
  let w2 := step headerTokens w1 (EncodeSettled (encoded w1) (inr d)) in
  contentEncodings headerTokens w = [] ∧
  encodeCalls w1 = [mkCall 0 d []] ∧
  contentLength w2 = 2.
Proof.
  intros d e w w1 w2.
  assert (contentEncodings headerTokens w = []) as Hempty by reflexivity.
  destruct (C8_no_encoding_passthrough headerTokens w Hempty) as (Hcalls & _ & Hlen & _).
  repeat split; done.
Defined.

(** Replacing the payload of a new object leaves [contentLength] at 0. *)
Lemma C10_witness :
  let d := mkBuffer 1 [x61; x62] in
  let d' := mkBuffer 2 [x78; x79; x7a] in
  let w := new_EditableBody headerTokens d None (HeaderString "gzip") 0 in
  _encodedBody w = None ∧
  contentLength (step headerTokens w (UpdateDecodedBody d')) = 0.
Proof.
  intros d d' w.
  assert (_encodedBody w = None) as Hnone by reflexivity.
  destruct (C10_update_keeps_encoded headerTokens w d') as (_ & _ & H & _).
  split; [done|]. exact (H Hnone).
Defined.

(** * The helpers of [src/util/index.ts] *)

(** ** [firstMatch] *)

(** X7, what [firstMatch] can return: a value it returns is truthy and is the
    result of a case whose matcher held or one of the plain values; a case
    whose result is falsy is passed over even when its matcher holds. *)
Theorem firstMatch_returns_truthy_member {R} (truthy : R → bool)
    (tests : list (Util.Test R)) (r : R) :
  Util.firstMatch truthy tests = Some r →
  truthy r = true ∧
  (Util.TestCase true (Some r) ∈ tests ∨ Util.TestValue (Some r) ∈ tests).
Proof.
  assert (∀ (t : Util.Test R) rest,
            truthy r = true ∧
            (Util.TestCase true (Some r) ∈ rest ∨ Util.TestValue (Some r) ∈ rest) →
            truthy r = true ∧
            (Util.TestCase true (Some r) ∈ t :: rest ∨
             Util.TestValue (Some r) ∈ t :: rest)) as Hlater.
  { intros t rest [? [?|?]]; (split; [done|]); [left|right]; by right. }
  induction tests as [|[matcher result|value] rest IH]; simpl; [done| |].
  - destruct matcher; simpl; [|by intros; apply Hlater, IH].
    destruct result as [r'|]; simpl; [|by intros; apply Hlater, IH].
    destruct (truthy r') eqn:Ht; [|by intros; apply Hlater, IH].
    intros [= ->]. split; [done|]. left. by left.
  - destruct value as [r'|]; simpl; [|by intros; apply Hlater, IH].
    destruct (truthy r') eqn:Ht; [|by intros; apply Hlater, IH].
    intros [= ->]. split; [done|]. right. by left.
Qed.

(** X8, [firstMatch] over two lists of tests in a row: the first match of the
    first list if it has one, else the first match of the second. *)
Theorem firstMatch_app {R} (truthy : R → bool) (tests more : list (Util.Test R)) :
  Util.firstMatch truthy (tests ++ more) =
  match Util.firstMatch truthy tests with
  | Some r => Some r
  | None => Util.firstMatch truthy more
  end.
Proof.
  induction tests as [|[matcher result|value] rest IH]; simpl; [done| |].
  - destruct (matcher && Util.isTruthy truthy result) eqn:H; [|done].
    destruct result; [done|]. by rewrite andb_false_r in H.
  - destruct (Util.isTruthy truthy value) eqn:H; [|done].
    by destruct value.
Qed.

(** ** [longestPrefix] *)

Lemma shortestLength_base {C} (b : list C) (ss : list (list C)) :
  Util.shortestLength b ss ≤ length b.
Proof.
  unfold Util.shortestLength. induction ss as [|s ss IH]; simpl; lia.
Qed.

Lemma shortestLength_elem {C} (b : list C) (ss : list (list C)) (s : list C) :
  s ∈ ss → Util.shortestLength b ss ≤ length s.
Proof.
  unfold Util.shortestLength.
  induction 1 as [s ss|s s' ss _ IH]; simpl; lia.
Qed.

Lemma shortestLength_greatest {C} (b : list C) (ss : list (list C)) (n : nat) :
  n ≤ length b → (∀ s, s ∈ ss → n ≤ length s) → n ≤ Util.shortestLength b ss.
Proof.
  unfold Util.shortestLength. intros Hb.
  induction ss as [|s ss IH]; intros Hss; simpl; [done|].
  apply Nat.min_glb.
  - apply Hss. by left.
  - apply IH. intros s' Hs'. apply Hss. by right.
Qed.

Lemma forallb_agree {C} `{EqDecision C} (ss : list (list C)) (i : nat) (char : option C) :
  forallb (λ s, bool_decide (s !! i = char)) ss = true ↔ ∀ s, s ∈ ss → s !! i = char.
Proof.
  rewrite List.forallb_forall. split.
  - intros H s Hs. apply list_elem_of_In in Hs. specialize (H s Hs).
    by apply bool_decide_eq_true in H.
  - intros H s Hs. apply bool_decide_eq_true, H. by apply list_elem_of_In.
Qed.

Lemma forallb_disagree {C} `{EqDecision C} (ss : list (list C)) (i : nat) (char : option C) :
  forallb (λ s, bool_decide (s !! i = char)) ss = false → ∃ s, s ∈ ss ∧ s !! i ≠ char.
Proof.
  induction ss as [|s ss IH]; simpl; [done|].
  destruct (bool_decide (s !! i = char)) eqn:Hs; simpl.
  - intros H. destruct (IH H) as (s' & Hin & Hne). exists s'. split; [by right|done].
  - intros _. exists s. split; [by left|]. by apply bool_decide_eq_false in Hs.
Qed.

(** The loop stops at an index [k] up to which all strings agree with the
    base string, at the shortest length or at the first disagreement. *)
Lemma prefixLoop_stops {C} `{EqDecision C} (b : list C) (ss : list (list C)) steps i :
  i + steps ≤ Util.shortestLength b ss →
  (∀ s, s ∈ ss → take i s = take i b) →
  ∃ k, i ≤ k ∧ k ≤ i + steps ∧
       Util.prefixLoop b ss steps i (take i b) = take k b ∧
       (∀ s, s ∈ ss → take k s = take k b) ∧
       (k = i + steps ∨ ∃ s, s ∈ ss ∧ s !! k ≠ b !! k).
Proof.
  revert i. induction steps as [|steps IH]; intros i Hlen Hagree; simpl.
  - exists i. repeat split; try done; lia.
  - pose proof (shortestLength_base b ss) as Hb.
    destruct (lookup_lt_is_Some_2 b i) as [c Hc]; [lia|].
    destruct (forallb _ ss) eqn:Hall.
    + rewrite forallb_agree in Hall. rewrite Hc in *. simpl.
      rewrite <- (take_S_r b i c Hc).
      destruct (IH (S i)) as (k & Hik & Hk & Hres & Hag & Hstop).
      * lia.
      * intros s Hs. rewrite (take_S_r s i c), (take_S_r b i c); [|done|by apply Hall].
        by rewrite Hagree.
      * exists k. repeat split; try done; try lia.
        destruct Hstop as [->|?]; [left; lia | by right].
    + exists i. repeat split; try done; try lia.
      right. by apply forallb_disagree.
Qed.

Lemma longestPrefix_stops {C} `{EqDecision C} (b : list C) (ss : list (list C)) :
  ∃ k, Util.longestPrefix b ss = take k b ∧
       (∀ s, s ∈ ss → take k s = take k b) ∧
       (k = Util.shortestLength b ss ∨ ∃ s, s ∈ ss ∧ s !! k ≠ b !! k).
Proof.
  destruct (prefixLoop_stops b ss (Util.shortestLength b ss) 0)
    as (k & _ & _ & Hres & Hag & Hstop); [done|done|].
  exists k. by repeat split.
Qed.

(** X9, [longestPrefix] returns a common prefix: of the base string and of
    every other string given. *)
Theorem longestPrefix_is_common_prefix {C} `{EqDecision C} (baseString : list C)
    (strings : list (list C)) :
  Util.longestPrefix baseString strings `prefix_of` baseString ∧
  (∀ s, s ∈ strings → Util.longestPrefix baseString strings `prefix_of` s).
Proof.
  destruct (longestPrefix_stops baseString strings) as (k & -> & Hag & _).
  split; [apply prefix_take|].
  intros s Hs. rewrite <- (Hag s Hs). apply prefix_take.
Qed.

(** X10, and the longest one: every common prefix of the base string and of
    all the other strings is a prefix of what [longestPrefix] returns. *)
Theorem longestPrefix_is_longest {C} `{EqDecision C} (baseString : list C)
    (strings : list (list C)) (p : list C) :
  p `prefix_of` baseString →
  (∀ s, s ∈ strings → p `prefix_of` s) →
  p `prefix_of` Util.longestPrefix baseString strings.
Proof.
  intros [q Hq] Hss.
  destruct (longestPrefix_stops baseString strings) as (k & -> & _ & Hstop).
  assert (length p ≤ k) as Hk.
  { destruct Hstop as [->|(s & Hs & Hne)].
    - apply shortestLength_greatest.
      + rewrite Hq, length_app. lia.
      + intros s Hs. by apply prefix_length, Hss.
    - destruct (decide (length p ≤ k)) as [|Hlt]; [done|].
      exfalso. apply Hne. destruct (Hss s Hs) as [q' ->].
      rewrite Hq, !lookup_app_l by lia. done. }
  rewrite Hq, take_app_ge by done. by eexists.
Qed.

(** X11, the edge cases of [longestPrefix]: with no other string the base
    string comes back whole, and an empty string among the arguments makes
    the result empty. *)
Theorem longestPrefix_edges {C} `{EqDecision C} (baseString : list C)
    (strings : list (list C)) :
  Util.longestPrefix baseString [] = baseString ∧
  Util.longestPrefix [] strings = [] ∧
  ([] ∈ strings → Util.longestPrefix baseString strings = []).
Proof.
  split; [|split].
  - destruct (longestPrefix_stops baseString []) as (k & -> & _ & [->|(s & Hs & _)]).
    + by apply take_ge.
    + by apply elem_of_nil in Hs.
  - destruct (longestPrefix_stops [] strings) as (k & -> & _). by destruct k.
  - intros Hin.
    destruct (longestPrefix_stops baseString strings) as (k & -> & Hag & _).
    rewrite <- (Hag [] Hin). by destruct k.
Qed.

(** ** [recursiveMapValues] *)

(** Induction on a value, through the arrays and the objects inside it. *)
Lemma JsValue_nested_ind {A} (P : Util.JsValue A → Prop) :
  (∀ a, P (Util.JsLeaf a)) →
  (∀ items, Forall P items → P (Util.JsArray items)) →
  (∀ fields, Forall (λ kv, P kv.2) fields → P (Util.JsObject fields)) →
  ∀ v, P v.
Proof.
  intros Hleaf Harray Hobject.
  fix IH 1. intros [a|items|fields].
  - apply Hleaf.
  - apply Harray. induction items as [|v items IHitems]; constructor; [apply IH|done].
  - apply Hobject.
    induction fields as [|[k v] fields IHfields]; constructor; [apply IH|done].
Qed.

Lemma map_ext_Forall {X Y} (f g : X → Y) (l : list X) :
  Forall (λ x, f x = g x) l → map f l = map g l.
Proof. induction 1 as [|x l Hx _ IH]; simpl; [done|]. by rewrite Hx, IH. Qed.

(** X12, mapping with a function that gives every leaf back returns the
    value unchanged, whatever key it is mapped under. *)
Theorem recursiveMapValues_identity {A} (input : Util.JsValue A) (key : option string) :
  Util.recursiveMapValues input (λ a _, Util.JsLeaf a) key = input.
Proof.
  revert key. induction input as [a|items IH|fields IH] using JsValue_nested_ind;
    intros key; simpl; [done| |]; f_equal.
  - rewrite <- (map_id items) at 2. apply map_ext_Forall.
    eapply Forall_impl; [exact IH|]. intros v Hv. apply Hv.
  - rewrite <- (map_id fields) at 2. apply map_ext_Forall.
    eapply Forall_impl; [exact IH|]. intros [k v] Hv. simpl in *. by rewrite Hv.
Qed.

(** X13, two passes are one: mapping the leaves with [f] and then the result
    with [g] is mapping once with [g] after [f], every leaf being seen with
    the same key in both passes (none inside an array, its own key inside an
    object). *)
Theorem recursiveMapValues_fusion {A B D} (input : Util.JsValue A)
    (f : A → option string → B) (g : B → option string → Util.JsValue D)
    (key : option string) :
  Util.recursiveMapValues
    (Util.recursiveMapValues input (λ a k, Util.JsLeaf (f a k)) key) g key =
  Util.recursiveMapValues input (λ a k, g (f a k) k) key.
Proof.
  revert key. induction input as [a|items IH|fields IH] using JsValue_nested_ind;
    intros key; simpl; [done| |]; f_equal; rewrite map_map; apply map_ext_Forall.
  - eapply Forall_impl; [exact IH|]. intros v Hv. apply Hv.
  - eapply Forall_impl; [exact IH|]. intros [k v] Hv. simpl in *. by rewrite Hv.
Qed.

(** ** [asBuffer] and [byteLength] *)

(** X14, [asBuffer] keeps the byte length: for every input [byteLength]
    accepts, the buffer [asBuffer] makes of it has the byte length
    [byteLength] reports for the input itself; a value that is a Buffer
    already is returned as it is. *)
Theorem asBuffer_keeps_byteLength (utf8 : string → list byte) (fresh : nat)
    (data : Util.BufferData) :
  Util.byteLength utf8 (Util.DataBuffer (Util.asBuffer utf8 fresh data)) =
    Util.byteLength utf8 data ∧
  (∀ b, Util.asBuffer utf8 fresh (Util.DataBuffer b) = b).
Proof.
  split; [|done].
  destruct data as [|[|c s]|b|view|numbers]; simpl; try done.
  by rewrite length_fmap.
Qed.

(** * [src/model/account/subscriptions.ts] *)

Lemma loadPlanPrices_ids formatPrice plans :
  map (λ kv, (kv.1, Subscriptions.id kv.2)) (Subscriptions.loadPlanPrices formatPrice plans)
  = map (λ kv, (kv.1, Subscriptions.id kv.2)) plans.
Proof. unfold Subscriptions.loadPlanPrices. rewrite map_map. by apply map_ext. Qed.

Lemma loaded_ids formatPrice n :
  map (λ kv, (kv.1, Subscriptions.id kv.2))
      (Nat.iter n (Subscriptions.loadPlanPrices formatPrice) Subscriptions.SubscriptionPlans)
  = map (λ kv, (kv.1, Subscriptions.id kv.2)) Subscriptions.SubscriptionPlans.
Proof. induction n as [|n IH]; simpl; [done|]. by rewrite loadPlanPrices_ids. Qed.

Lemma getSubscriptionPlanCode_ids plans plans' planId :
  map (λ kv, (kv.1, Subscriptions.id kv.2)) plans
  = map (λ kv, (kv.1, Subscriptions.id kv.2)) plans' →
  Subscriptions.getSubscriptionPlanCode plans planId
  = Subscriptions.getSubscriptionPlanCode plans' planId.
Proof.
  unfold Subscriptions.getSubscriptionPlanCode.
  revert plans'. induction plans as [|[c p] plans IH]; intros [|[c' p'] plans'] H;
    simpl in *; try done.
  injection H as -> Hid Hrest. rewrite Hid.
  destruct (bool_decide _); [done|]. by apply IH.
Qed.

(** X15, the plan code of a plan id: whatever prices have been loaded, looking
    up the id of any plan of the table gives back the code the plan is filed
    under (the ids of the table are pairwise distinct), a code that is
    returned is the code of a plan with the id asked for, and an [undefined]
    id gives [undefined]. *)
Theorem getSubscriptionPlanCode_inverts_table (formatPrice : string → N → string)
    (loads : nat) :
  let plans := Nat.iter loads (Subscriptions.loadPlanPrices formatPrice)
                 Subscriptions.SubscriptionPlans in
  (∀ code plan, (code, plan) ∈ plans →
     Subscriptions.getSubscriptionPlanCode plans (Some (Subscriptions.id plan)) = Some code) ∧
  (∀ planId code, Subscriptions.getSubscriptionPlanCode plans planId = Some code →
     ∃ plan, (code, plan) ∈ plans ∧ planId = Some (Subscriptions.id plan)) ∧
  Subscriptions.getSubscriptionPlanCode plans None = None.
Proof.
  intros plans. pose proof (loaded_ids formatPrice loads) as Hids. fold plans in Hids.
  split; [|split].
  - intros code plan Hin.
    rewrite (getSubscriptionPlanCode_ids _ _ _ Hids).
    assert ((code, Subscriptions.id plan) ∈
            map (λ kv, (kv.1, Subscriptions.id kv.2)) Subscriptions.SubscriptionPlans)
      as Hpair.
    { rewrite <- Hids. apply list_elem_of_In, in_map_iff.
      exists (code, plan). split; [done|]. by apply list_elem_of_In. }
    simpl in Hpair.
    repeat (apply elem_of_cons in Hpair as [[= -> ->]|Hpair]; [done|]).
    by apply elem_of_nil in Hpair.
  - intros planId code Hfound.
    unfold Subscriptions.getSubscriptionPlanCode in Hfound.
    destruct (List.find _ plans) as [[c p]|] eqn:Hfind; [|done].
    injection Hfound as ->. apply find_some in Hfind as [Hin Hid].
    exists p. split; [by apply list_elem_of_In|].
    simpl in Hid. by apply bool_decide_eq_true in Hid.
  - by rewrite (getSubscriptionPlanCode_ids _ _ _ Hids).
Qed.


(** * The response editor *)

(** X17, the body observer keeps a correct [content-length] correct: if the
    header stated the byte length of the previous body, it is rewritten to
    the byte length of the new body (as a single string, and correct again as
    soon as [parseInt] reads back what [toString] wrote); if it was missing,
    empty or stated another length, the headers stay as they are; no other
    header is ever touched. *)
Theorem bodyChanged_keeps_length_correct (parseInt : string → option Z)
    (toString : nat → string) (headers : gmap string HeaderValue)
    (previousBody newBody : Buffer) :
  let newLength := length (buf_bytes newBody) in
  let headers' := StaticResponse.bodyChanged parseInt toString headers previousBody newBody in
  parseInt (toString newLength) = Some (Z.of_nat newLength) →
  toString newLength ≠ EmptyString →
  (StaticResponse.lengthIsCorrect parseInt headers previousBody →
     headers' !! "content-length"%string = Some (HeaderString (toString newLength)) ∧
     StaticResponse.lengthIsCorrect parseInt headers' newBody) ∧
  (¬ StaticResponse.lengthIsCorrect parseInt headers previousBody → headers' = headers) ∧
  (∀ headerName, headerName ≠ "content-length"%string →
     headers' !! headerName = headers !! headerName).
Proof.
  intros newLength headers' Hround Hnonempty.
  unfold headers', StaticResponse.bodyChanged, StaticResponse.lengthIsCorrect.
  split; [|split].
  - intros (lengthHeader & -> & Hne & Hparse).
    destruct lengthHeader as [|c rest]; [done|].
    rewrite decide_True by done.
    split; [by rewrite lookup_insert_eq|].
    exists (toString newLength). unfold StaticResponse.getHeaderValue.
    by rewrite lookup_insert_eq.
  - intros Hwrong.
    destruct (StaticResponse.getHeaderValue headers "content-length")
      as [[|c rest]|] eqn:Hget; try done.
    destruct (decide _) as [Hparse|]; [|done].
    destruct Hwrong. by exists (String c rest).
  - intros headerName Hother.
    destruct (StaticResponse.getHeaderValue headers "content-length")
      as [[|c rest]|]; try done.
    destruct (decide _); [|done]. by rewrite lookup_insert_ne.
Qed.

(** * Concrete instances of the further properties *)

(** A new payload, then a failure of the encoder, a header change and time:
    the payload is still the one handed over. *)
Lemma decoded_written_by_update_only_witness :
  let d := mkBuffer 1 [x61; x62] in
  let d' := mkBuffer 2 [x78; x79; x7a] in
  let w := new_EditableBody headerTokens d None (HeaderString "gzip") 0 in
  let evs := [EncodeSettled 0 (inl "encoder failed"); HeaderChanged (HeaderString "br");
              Elapse 700; EncodeSettled 1 (inr (mkBuffer 3 [x41]))] in
  Forall (λ ev, is_update ev = false) evs ∧
  decoded (run headerTokens (step headerTokens w (UpdateDecodedBody d')) evs) = d'.
Proof.
  intros d d' w evs.
  assert (Forall (λ ev, is_update ev = false) evs) as Hevs by (by repeat constructor).
  split; [done|].
  exact (decoded_written_by_update_only headerTokens w d' evs Hevs).
Defined.

(** The only task of a new object resolves: [encoded] and the committed body
    agree. *)
Lemma encoded_value_is_committed_witness :
  let d := mkBuffer 1 [x61; x62] in
  let r := mkBuffer 2 [x41] in
  let w := run headerTokens
             (new_EditableBody headerTokens d None (HeaderString "gzip") 0)
             [EncodeSettled 0 (inr r)] in
  reachable headerTokens w ∧
  await w (encoded w) = Some (Fulfilled r) ∧
  _encodedBody w = Some r ∧ contentLength w = 1.
Proof.
  intros d r w.
  assert (reachable headerTokens w) as Hr by apply reachable_run, reachable_new.
  assert (await w (encoded w) = Some (Fulfilled r)) as Hawait by reflexivity.
  split; [done|]. split; [done|].
  exact (encoded_value_is_committed headerTokens w r Hr Hawait).
Defined.

(** The promise of a seeded object keeps the initial encoded body through a
    later recomputation. *)
Lemma fulfilled_promise_is_stable_witness :
  let d := mkBuffer 1 [x61; x62] in
  let e := mkBuffer 2 [x41] in
  let w := new_EditableBody headerTokens d (Some e) (HeaderString "gzip") 0 in
  let evs := [UpdateDecodedBody (mkBuffer 3 [x62]); EncodeSettled 1 (inr (mkBuffer 4 [x42]))] in
  await w 0 = Some (Fulfilled e) ∧
  await (run headerTokens w evs) 0 = Some (Fulfilled e).
Proof.
  intros d e w evs.
  assert (await w 0 = Some (Fulfilled e)) as H0 by reflexivity.
  split; [done|].
  exact (fulfilled_promise_is_stable headerTokens w 0 e evs H0).
Defined.

(** Two encoder calls, one failed and one pending: one error report. *)
Lemma errors_come_from_encoder_calls_witness :
  let d := mkBuffer 1 [x61; x62] in
  let w := run headerTokens
             (new_EditableBody headerTokens d None (HeaderString "gzip") 0)
             [UpdateDecodedBody (mkBuffer 2 [x62]); EncodeSettled 0 (inl "encoder failed");
              Elapse 500] in
  reachable headerTokens w ∧
  length (errors w) + pendingTasks w ≤ length (encodeCalls w) ∧
  length (errors w) = 1 ∧ length (encodeCalls w) = 2.
Proof.
  intros d w.
  assert (reachable headerTokens w) as Hr by apply reachable_run, reachable_new.
  destruct (errors_come_from_encoder_calls headerTokens w Hr) as [Hcount _].
  repeat split; done.
Defined.

(** The body committed by a failed call is the value of that call's
    promise. *)
Lemma committed_body_is_a_promise_value_witness :
  let d := mkBuffer 1 [x61; x62] in
  let w := run headerTokens
             (new_EditableBody headerTokens d None (HeaderString "gzip") 0)
             [EncodeSettled 0 (inl "encoder failed")] in
  reachable headerTokens w ∧ _encodedBody w = Some d ∧
  ∃ p, await w p = Some (Fulfilled d).
Proof.
  intros d w.
  assert (reachable headerTokens w) as Hr by apply reachable_run, reachable_new.
  assert (_encodedBody w = Some d) as Hd by reflexivity.
  split; [done|]. split; [done|].
  exact (committed_body_is_a_promise_value headerTokens w d Hr Hd).
Defined.

(** Numbers, truthy when not zero: a case that holds with result 0 is passed
    over, the next plain value is returned. *)
Lemma firstMatch_returns_truthy_member_witness :
  let truthy := λ n : nat, negb (Nat.eqb n 0) in
  let tests := [Util.TestCase true (Some 0); Util.TestCase false (Some 5);
                Util.TestValue None; Util.TestValue (Some 7); Util.TestValue (Some 9)] in
  Util.firstMatch truthy tests = Some 7 ∧
  truthy 7 = true ∧
  (Util.TestCase true (Some 7) ∈ tests ∨ Util.TestValue (Some 7) ∈ tests).
Proof.
  intros truthy tests.
  assert (Util.firstMatch truthy tests = Some 7) as H by reflexivity.
  split; [done|].
  exact (firstMatch_returns_truthy_member truthy tests 7 H).
Defined.

(** "ab" is a common prefix of "abc", "abd" and "abce". *)
Lemma longestPrefix_is_longest_witness :
  let baseString := ["a"; "b"; "c"]%char in
  let strings := [["a"; "b"; "d"]; ["a"; "b"; "c"; "e"]]%char in
  let p := ["a"; "b"]%char in
  p `prefix_of` baseString ∧
  (∀ s, s ∈ strings → p `prefix_of` s) ∧
  p `prefix_of` Util.longestPrefix baseString strings.
Proof.
  intros baseString strings p.
  assert (p `prefix_of` baseString) as Hb by (by exists ["c"%char]).
  assert (∀ s, s ∈ strings → p `prefix_of` s) as Hs.
  { intros s Hs. apply elem_of_cons in Hs as [->|Hs]; [by exists ["d"%char]|].
    apply list_elem_of_singleton in Hs as ->. by exists ["c"; "e"]%char. }
  split; [done|]. split; [done|].
  exact (longestPrefix_is_longest baseString strings p Hb Hs).
Defined.

(** A body of two bytes replaced by one of three, under a header "2" held as
    an array; [parseInt] and [toString] read and write decimal numerals. *)
Lemma bodyChanged_keeps_length_correct_witness :
  let parseInt := λ s, (λ d, Z.of_nat (Nat.of_uint d)) <$> DecimalString.NilZero.uint_of_string s in
  let toString := λ n, DecimalString.NilZero.string_of_uint (Nat.to_uint n) in
  let headers : gmap string HeaderValue :=
    {[ "content-length"%string := HeaderArray ["2"%string] ]} in
  let previousBody := mkBuffer 1 [x61; x62] in
  let newBody := mkBuffer 2 [x78; x79; x7a] in
  let headers' := StaticResponse.bodyChanged parseInt toString headers previousBody newBody in
  parseInt (toString 3) = Some 3%Z ∧
  toString 3 ≠ EmptyString ∧
  StaticResponse.lengthIsCorrect parseInt headers previousBody ∧
  headers' !! "content-length"%string = Some (HeaderString "3").
Proof.
  intros parseInt toString headers previousBody newBody headers'.
  assert (parseInt (toString 3) = Some 3%Z) as Hround by reflexivity.
  assert (toString 3 ≠ EmptyString) as Hne by done.
  assert (StaticResponse.lengthIsCorrect parseInt headers previousBody) as Hok
    by (by exists "2"%string).
  destruct (bodyChanged_keeps_length_correct parseInt toString headers
              previousBody newBody Hround Hne) as [H _].
  destruct (H Hok) as [Hheader _].
  repeat split; done.
Defined.
